(** * voc: a cached documentation build on top of pdoc

    A shallow embedding of [voc.py]: the disk-backed memoizing cache
    ([Cache], [CacheHTML], [CacheIndex]), the loader that prunes modules
    which fail to import ([load_modules]) and the build orchestration
    ([search_index], [render_modules], [build_modules]).

    Python strings are Rocq strings (one [ascii] per character), a [dict]
    is an insertion-ordered association list with unique keys, a [set] of
    names is a [gset string], the file system is a finite map from paths to
    nodes, and the functions of pdoc are the fields of the class [Pdoc]. *)

From Stdlib Require Import String Ascii List Bool Arith Lia.
From stdpp Require Import base gmap strings list fin_maps sorting.

Local Open Scope string_scope.
Local Open Scope list_scope.

(** ** Methods of [str] used by the program *)

Module Str.

(** [s.split(sep)] for a one-character separator. *)
Fixpoint split (sep : ascii) (s : string) : list string :=
  match s with
  | EmptyString => [EmptyString]
  | String c s' =>
      if Ascii.eqb c sep then EmptyString :: split sep s'
      else match split sep s' with
           | [] => [String c EmptyString]
           | w :: ws => String c w :: ws
           end
  end.

(** [sep.join(l)]. *)
Definition join (sep : string) (l : list string) : string :=
  String.concat sep l.

(** [s.count(c)] for a one-character pattern. *)
Fixpoint count (c : ascii) (s : string) : nat :=
  match s with
  | EmptyString => 0
  | String a s' => (if Ascii.eqb a c then 1 else 0) + count c s'
  end.

(** [s.replace(old, new)] for one-character [old] and [new]. *)
Fixpoint replace (old new : ascii) (s : string) : string :=
  match s with
  | EmptyString => EmptyString
  | String a s' =>
      String (if Ascii.eqb a old then new else a) (replace old new s')
  end.

(** [sub in s]. *)
Fixpoint contains (sub s : string) : bool :=
  String.prefix sub s ||
  match s with
  | EmptyString => false
  | String _ s' => contains sub s'
  end.

(** [s[:i]]. *)
Definition slice_to (i : nat) (s : string) : string :=
  String.substring 0 i s.

(** Iterating over a [str] yields its characters as strings of length one. *)
Definition chars (s : string) : list string :=
  map (fun c => String c EmptyString) (list_ascii_of_string s).

End Str.

(** ** Exceptions and results *)

(** [RuntimeError msg] stands for any instance of [RuntimeError] (or of a
    subclass) whose [str] is [msg]; [OtherException] for an exception outside
    that class. *)
Inductive exn : Type :=
  | KeyError
  | FileExistsError
  | FileNotFoundError
  | NotADirectoryError
  | IsADirectoryError
  | ValueError
  | RuntimeError (msg : string)
  | OtherException (descr : string).

Inductive result (A : Type) : Type :=
  | Ok (a : A)
  | Err (e : exn).

Arguments Ok {A} a.
Arguments Err {A} e.

Definition result_bind {A B} (r : result A) (f : A -> result B) : result B :=
  match r with
  | Ok a => f a
  | Err e => Err e
  end.

(** ** Paths (pathlib) *)

Record path : Type := mkPath { absolute : bool; parts : list string }.

Global Instance path_eq_dec : EqDecision path.
Proof. solve_decision. Defined.

Global Instance path_countable : Countable path.
Proof.
  apply (inj_countable' (fun p => (absolute p, parts p))
                        (fun x => mkPath (fst x) (snd x))).
  by intros [].
Defined.

(** A path component that pathlib drops when it parses a string. *)
Definition dropped_part (c : string) : Prop := c = "" \/ c = ".".

Global Instance dropped_part_dec c : Decision (dropped_part c).
Proof. unfold dropped_part. apply _. Defined.

(** [Path(s)]: the string is cut at the separators, empty and single-dot
    components are dropped; a leading separator makes the path absolute. *)
Definition Path (s : string) : path :=
  {| absolute := String.prefix "/" s;
     parts := filter (fun c => ~ dropped_part c) (Str.split "/" s) |}.

(** [p / q]: an absolute right operand replaces the left one. *)
Definition joinpath (p q : path) : path :=
  if absolute q then q
  else {| absolute := absolute p; parts := parts p ++ parts q |}.

Infix "</>" := joinpath (at level 40, left associativity).

(** [p.parent]. *)
Definition parent (p : path) : path :=
  {| absolute := absolute p; parts := removelast (parts p) |}.

(** ** The file system *)

Inductive node : Type :=
  | Dir
  | File (data : string).

(** The operations performed on the disk, in the order they happened. *)
Inductive fs_op : Type :=
  | OpMkdir (p : path)
  | OpWrite (p : path) (data : string)
  | OpRead (p : path)
  | OpUnlink (p : path).

Record filesystem : Type :=
  mkFs { nodes : gmap path node; journal : list fs_op }.

Module Fs.

(** The directory a path with no component denotes (the root, or the
    working directory) always exists. *)
Definition lookup (p : path) (fs : filesystem) : option node :=
  match parts p with
  | [] => Some Dir
  | _ => nodes fs !! p
  end.

(** [p.exists()]. *)
Definition exists_ (p : path) (fs : filesystem) : bool :=
  match lookup p fs with
  | Some _ => true
  | None => false
  end.

(** [p.is_dir()]. *)
Definition is_dir (p : path) (fs : filesystem) : bool :=
  match lookup p fs with
  | Some Dir => true
  | _ => false
  end.

(** The directories of [todo] are created below [done], first to last. *)
Fixpoint mkdir_from (abs : bool) (done todo : list string)
    (fs : filesystem) : result filesystem :=
  match todo with
  | [] => Ok fs
  | c :: todo' =>
      let q := mkPath abs (done ++ [c]) in
      match nodes fs !! q with
      | Some Dir => mkdir_from abs (done ++ [c]) todo' fs
      | Some (File _) =>
          Err (match todo' with
               | [] => FileExistsError
               | _ => NotADirectoryError
               end)
      | None =>
          mkdir_from abs (done ++ [c]) todo'
            {| nodes := <[q := Dir]> (nodes fs);
               journal := journal fs ++ [OpMkdir q] |}
      end
  end.

(** [p.mkdir(parents=True, exist_ok=True)]: every missing directory on
    the way to [p] is created; a regular file on the way is an error. *)
Definition mkdir (p : path) (fs : filesystem) : result filesystem :=
  mkdir_from (absolute p) [] (parts p) fs.

(** [p.write_text(data)], [p.write_bytes(data.encode())] and writing
    through [p.open("w")]: the file is created or replaced. *)
Definition write_text (p : path) (data : string) (fs : filesystem)
    : result filesystem :=
  match lookup p fs with
  | Some Dir => Err IsADirectoryError
  | _ =>
      match lookup (parent p) fs with
      | Some Dir =>
          Ok {| nodes := <[p := File data]> (nodes fs);
                journal := journal fs ++ [OpWrite p data] |}
      | Some (File _) => Err NotADirectoryError
      | None => Err FileNotFoundError
      end
  end.

(** [p.read_text()] and reading through [p.open("r")]. The disk holds
    text: a file gives back the string that was written to it. Decoding
    of bytes, the translation of line ends and access rights are below
    this model, so the only failures of a read here are a missing file
    and a directory in place of the file. *)
Definition read_text (p : path) (fs : filesystem)
    : result (string * filesystem) :=
  match lookup p fs with
  | Some (File data) =>
      Ok (data, {| nodes := nodes fs; journal := journal fs ++ [OpRead p] |})
  | Some Dir => Err IsADirectoryError
  | None => Err FileNotFoundError
  end.

(** [p.unlink()]. *)
Definition unlink (p : path) (fs : filesystem) : result filesystem :=
  match lookup p fs with
  | Some (File _) =>
      Ok {| nodes := delete p (nodes fs);
            journal := journal fs ++ [OpUnlink p] |}
  | Some Dir => Err IsADirectoryError
  | None => Err FileNotFoundError
  end.

(** The files written, oldest first. *)
Definition written (fs : filesystem) : list (path * string) :=
  omap (fun op => match op with
                  | OpWrite p data => Some (p, data)
                  | _ => None
                  end) (journal fs).

End Fs.

(** ** The world: the disk and the calls made so far *)

(** [CallCompute root rel]: the [compute] method of the cache rooted at
    [root] was called on a key whose derived path is [rel].
    [CallRootRender]: the module template was rendered once to bind the
    visibility predicate. *)
Inductive call : Type :=
  | CallCompute (root rel : path)
  | CallRootRender
  | CallHtmlIndex
  | CallPrecompileIndex.

Record world : Type := mkWorld { fs : filesystem; calls : list call }.

Definition io (A : Type) : Type := world -> result (A * world).

Definition ret {A} (a : A) : io A := fun w => Ok (a, w).

Definition bind {A B} (m : io A) (f : A -> io B) : io B :=
  fun w => match m w with
           | Ok (a, w') => f a w'
           | Err e => Err e
           end.

Definition raise {A} (e : exn) : io A := fun _ => Err e.

Notation "'let*' x ':=' m 'in' k" := (bind m (fun x => k))
  (at level 10, x pattern, m at level 100, k at level 200).

(** An operation on the disk, run in the world. *)
Definition on_fs (f : filesystem -> result filesystem) : io unit :=
  fun w => match f (fs w) with
           | Ok fs' => Ok (tt, {| fs := fs'; calls := calls w |})
           | Err e => Err e
           end.

(** An operation on the disk that gives a value. *)
Definition from_fs {A} (f : filesystem -> result (A * filesystem)) : io A :=
  fun w => match f (fs w) with
           | Ok (a, fs') => Ok (a, {| fs := fs'; calls := calls w |})
           | Err e => Err e
           end.

Definition record_call (c : call) : io unit :=
  fun w => Ok (tt, {| fs := fs w; calls := calls w ++ [c] |}).

(** [for x in l: body(x)]. *)
Fixpoint for_each {A} (l : list A) (body : A -> io unit) : io unit :=
  match l with
  | [] => ret tt
  | x :: l' => let* _ := body x in for_each l' body
  end.

(** [[y for x in l for y in f(x)]]. *)
Fixpoint gather {A B} (l : list A) (f : A -> io (list B)) : io (list B) :=
  match l with
  | [] => ret []
  | x :: l' =>
      let* ys := f x in
      let* rest := gather l' f in
      ret (ys ++ rest)
  end.

(** ** [class Cache[K, V]] *)

(** A cache object: its root and the four methods a subclass supplies.
    [save] and [load] act on the disk only; [compute] is a function of
    the key, and every call of it is recorded in the world. *)
Record Cache (K V : Type) : Type := mkCache {
  cache_path : path;
  key : K -> path;
  save : path -> V -> filesystem -> result filesystem;
  load : path -> filesystem -> result (V * filesystem);
  compute : K -> V
}.

Arguments mkCache {K V}.
Arguments cache_path {K V}.
Arguments key {K V}.
Arguments save {K V}.
Arguments load {K V}.
Arguments compute {K V}.

Module Cache.
Section Methods.
Context {K V : Type}.

(** [Cache.__init__]: the root directory is created. *)
Definition init (p : path) : io unit := on_fs (Fs.mkdir p).

(** The call [self.compute(key)]. *)
Definition call_compute (self : Cache K V) (k : K) : io V :=
  let* _ := record_call (CallCompute (cache_path self) (key self k)) in
  ret (compute self k).

Definition getitem (self : Cache K V) (k : K) : io V :=
  let p := cache_path self </> key self k in
  fun w =>
    if negb (Fs.exists_ p (fs w)) then Err KeyError
    else from_fs (load self p) w.

Definition setitem (self : Cache K V) (k : K) (value : V) : io unit :=
  let p := cache_path self </> key self k in
  let* _ := on_fs (Fs.mkdir (parent p)) in
  on_fs (save self p value).

Definition delitem (self : Cache K V) (k : K) : io unit :=
  let p := cache_path self </> key self k in
  fun w =>
    if Fs.exists_ p (fs w) then on_fs (Fs.unlink p) w
    else Ok (tt, w).

Definition contains (self : Cache K V) (k : K) : io bool :=
  let p := cache_path self </> key self k in
  fun w => Ok (Fs.exists_ p (fs w), w).

(** [Cache.get]: only a [KeyError] of the read is handled. *)
Definition get (self : Cache K V) (k : K) : io V :=
  fun w =>
    match getitem self k w with
    | Err KeyError =>
        (let* value := call_compute self k in
         let* _ := setitem self k value in
         ret value) w
    | r => r
    end.

End Methods.
End Cache.

(** ** pdoc *)

(** What importing a name gives. *)
Inductive outcome (M : Type) : Type :=
  | Imported (m : M)
  | Raises (e : exn).

Arguments Imported {M} m.
Arguments Raises {M} e.

(** The functions of pdoc (and of json) the program calls.
    [doc_Module] is [pdoc.doc.Module], [entry] one record of the search
    index. [search_js] is the template [search.js.jinja2] applied to the
    precompiled index. [walk_specs] is the list of candidates the walk
    yields when it returns; the exception pdoc's walk raises itself (on
    specs that name no module) is outside the [try] of the loop and not
    part of this model, so what is proved of [load_modules] is about the
    loop over the yielded candidates. *)
Class Pdoc : Type := {
  doc_Module : Type;
  fullname : doc_Module -> string;
  entry : Type;
  walk_specs : list string -> list string;
  from_name : string -> outcome doc_Module;
  html_module : doc_Module -> list (string * doc_Module) -> string;
  html_index : list (string * doc_Module) -> string;
  make_index : list (string * doc_Module) -> list entry;
  precompile_index : list entry -> string;
  search_js : string -> string;
  json_dump : list entry -> string;
  json_load : string -> option (list entry)
}.

(** A [dict] with [str] keys, in insertion order. *)
Definition dict (M : Type) : Type := list (string * M).

(** [d[k] = v]: a key already present keeps its place. *)
Fixpoint dict_set {M} (k : string) (v : M) (d : dict M) : dict M :=
  match d with
  | [] => [(k, v)]
  | (k', v') :: d' =>
      if String.eqb k k' then (k, v) :: d'
      else (k', v') :: dict_set k v d'
  end.

(** [{k: v for k, v in items}]. *)
Definition dict_of_items {M} (items : list (string * M)) : dict M :=
  fold_left (fun d kv => dict_set (fst kv) (snd kv) d) items [].

(** [pdoc.render.env.globals]. *)
Record globals : Type := mkGlobals { search : bool }.

(** [bool(s)] for a [str]. *)
Definition truthy (s : string) : bool :=
  negb (String.eqb s "").

Section Program.
Context `{Pdoc}.

(** *** [class CacheHTML] *)

Definition CacheHTML_key (m : doc_Module) : path :=
  Path (Str.replace "." "/" (fullname m) ++ ".html").

Definition CacheHTML (p : path) (modules : dict doc_Module)
    : Cache doc_Module string :=
  {| cache_path := p;
     key := CacheHTML_key;
     save := fun q value => Fs.write_text q value;
     load := fun q => Fs.read_text q;
     compute := fun m => html_module m modules |}.

Definition CacheHTML_init (p : path) (modules : dict doc_Module)
    : io (Cache doc_Module string) :=
  let* _ := Cache.init p in
  ret (CacheHTML p modules).

(** *** [class CacheIndex] *)

Definition CacheIndex_key (k : string * doc_Module) : path :=
  Path (Str.replace "." "/" (fst k) ++ ".json").

Definition CacheIndex (p : path) (modules : dict doc_Module)
    : Cache (string * doc_Module) (list entry) :=
  {| cache_path := p;
     key := CacheIndex_key;
     save := fun q value => Fs.write_text q (json_dump value);
     load := fun q fs0 =>
       result_bind (Fs.read_text q fs0) (fun r =>
         match json_load (fst r) with
         | Some value => Ok (value, snd r)
         | None => Err ValueError
         end);
     compute := fun k => make_index [k] |}.

(** The constructor creates the root, then renders the module template
    once to obtain the context of [_is_public]. *)
Definition CacheIndex_init (p : path) (modules : dict doc_Module)
    : io (Cache (string * doc_Module) (list entry)) :=
  let* _ := Cache.init p in
  let* _ := record_call CallRootRender in
  ret (CacheIndex p modules).

(** *** [search_index] *)

Definition search_index (g : globals) (modules : dict doc_Module)
    (cache_path : path) : io string :=
  let* cache := CacheIndex_init cache_path modules in
  if negb (search g) then ret ""
  else
    let* index := gather modules (fun k => Cache.get cache k) in
    let* _ := record_call CallPrecompileIndex in
    ret (search_js (precompile_index index)).

(** *** [render_modules] *)

Definition render_modules (g : globals) (modules : dict doc_Module)
    (output_directory : path) : io unit :=
  let* cache := CacheHTML_init output_directory modules in
  let* _ := for_each modules (fun item =>
    let module := snd item in
    let* present := Cache.contains cache module in
    if negb present then
      let* value := Cache.call_compute cache module in
      Cache.setitem cache module value
    else ret tt) in
  let* _ := record_call CallHtmlIndex in
  let index := html_index modules in
  let* _ := (if truthy index
             then on_fs (Fs.write_text
                           (output_directory </> Path "index.html") index)
             else ret tt) in
  let* search := search_index g modules
                   (output_directory </> Path ".cache" </> Path "search") in
  if truthy search
  then on_fs (Fs.write_text (output_directory </> Path "search.js") search)
  else ret tt.

(** *** [load_modules] *)

(** The state of the loop: the two locals, and the names whose import
    was attempted so far. *)
Record load_state : Type := mkLoad {
  loaded : dict doc_Module;
  invalid : gset string;
  attempted : list string
}.

(** [{".".join(name[:i]) for i in range(1, len(parts))}]: the slice is
    taken of the string [name]. *)
Definition invalidated (name : string) : list string :=
  let parts := Str.split "." name in
  map (fun i => Str.join "." (Str.chars (Str.slice_to i name)))
      (seq 1 (length parts - 1)).

(** One iteration of the loop. *)
Definition load_step (name : string) (st : load_state)
    : result load_state :=
  if decide (name ∈ invalid st) then Ok st
  else
    let tried := attempted st ++ [name] in
    match from_name name with
    | Imported m =>
        Ok {| loaded := dict_set name m (loaded st);
              invalid := invalid st;
              attempted := tried |}
    | Raises (RuntimeError msg) =>
        if Str.contains "Error importing" msg
        then Ok {| loaded := loaded st;
                   invalid := invalid st ∪ list_to_set (invalidated name);
                   attempted := tried |}
        else Ok {| loaded := loaded st;
                   invalid := invalid st;
                   attempted := tried |}
    | Raises e => Err e
    end.

Fixpoint load_loop (names : list string) (st : load_state)
    : result load_state :=
  match names with
  | [] => Ok st
  | name :: names' =>
      result_bind (load_step name st) (load_loop names')
  end.

(** [(int(bool(x[0].count("."))), x[0])]. *)
Definition sort_key (x : string * doc_Module) : nat * string :=
  (if Nat.eqb (Str.count "." (fst x)) 0 then 0 else 1, fst x).

(** [a < b] on the key tuples. *)
Definition key_ltb (a b : nat * string) : bool :=
  Nat.ltb (fst a) (fst b) ||
  (Nat.eqb (fst a) (fst b) && String.ltb (snd a) (snd b)).

(** [sorted(items, key=...)]: a stable sort; an item is put before
    the first one whose key is not below its own. *)
Fixpoint sorted_insert (x : string * doc_Module)
    (l : list (string * doc_Module)) : list (string * doc_Module) :=
  match l with
  | [] => [x]
  | y :: l' =>
      if key_ltb (sort_key y) (sort_key x) then y :: sorted_insert x l'
      else x :: y :: l'
  end.

Definition sorted (l : list (string * doc_Module))
    : list (string * doc_Module) :=
  fold_right sorted_insert [] l.

(** The dict comprehension of the [return]. *)
Definition finalize (st : load_state) : dict doc_Module :=
  dict_of_items
    (filter (fun x => fst x ∉ invalid st) (sorted (loaded st))).

Definition load_start : load_state :=
  {| loaded := []; invalid := ∅; attempted := [] |}.

Definition load_modules (modules : list string)
    : result (dict doc_Module) :=
  result_bind (load_loop (walk_specs modules) load_start)
              (fun st => Ok (finalize st)).

(** *** [build_modules] *)

(** [pdoc.render.configure(math=True, mermaid=True)] leaves the search
    option at its default, which is on. *)
Definition configured : globals := {| search := true |}.

Definition build_modules (modules : list string) (output : path)
    : io (gset string) :=
  let* _ := on_fs (Fs.mkdir output) in
  fun w =>
    match load_modules modules with
    | Err e => Err e
    | Ok targets =>
        (let* _ := render_modules configured targets output in
         ret (list_to_set (map fst targets))) w
    end.

End Program.

(** ** A small pdoc for the examples *)

(** Modules are their names; [failing] tells which imports raise. *)
Definition toy_pdoc (failing : string -> option exn) : Pdoc :=
  {| doc_Module := string;
     fullname := fun m => m;
     entry := string;
     walk_specs := fun specs => specs;
     from_name := fun name =>
       match failing name with
       | Some e => Raises e
       | None => Imported name
       end;
     html_module := fun m _ => ("<html>" ++ m)%string;
     html_index := fun ms =>
       match ms with
       | [] => ""
       | _ => "<index>"
       end;
     make_index := fun ms => map fst ms;
     precompile_index := fun es => Str.join "," es;
     search_js := fun s => ("index=" ++ s)%string;
     json_dump := fun es => Str.join "," es;
     json_load := fun s => Some (Str.split "," s) |}.

(** Every import succeeds. *)
Definition all_importable : string -> option exn := fun _ => None.

(** One name fails to import, with the error pdoc raises for it. *)
Definition import_error_at (broken : string) : string -> option exn :=
  fun name =>
    if String.eqb name broken
    then Some (RuntimeError ("Error importing " ++ broken)%string)
    else None.

(** One name raises a runtime error of another kind. *)
Definition runtime_error_at (bad : string) : string -> option exn :=
  fun name =>
    if String.eqb name bad then Some (RuntimeError "boom") else None.

(** A state of the loop of the toy loader. *)
Definition toy_state (failing : string -> option exn)
    (l : list (string * string)) (inv : gset string) (tried : list string)
    : @load_state (toy_pdoc failing) :=
  @mkLoad (toy_pdoc failing) l inv tried.

(** ** The notions of the specification *)

(** The ancestors of a dotted name [p1.p2.....pn]: [p1], [p1.p2], ...,
    [p1.....p(n-1)]. *)
Definition dotted_ancestors (name : string) : list string :=
  let ps := Str.split "." name in
  map (fun i => Str.join "." (take i ps)) (seq 1 (length ps - 1)).

(** A name is covered by a set when it, or one of its ancestors, is in it. *)
Definition covered (inv : gset string) (name : string) : Prop :=
  name ∈ inv \/ exists a, a ∈ dotted_ancestors name /\ a ∈ inv.

(** A name with no dot. *)
Definition top_level (name : string) : Prop := Str.count "." name = 0.

(** The part of the loop state the program can see. *)
Definition observable `{Pdoc} (st : load_state)
    : dict doc_Module * gset string :=
  (loaded st, invalid st).

Definition observe `{Pdoc} (r : result load_state)
    : result (dict doc_Module * gset string) :=
  result_bind r (fun st => Ok (observable st)).

(** What the loop maintains: the keys of [loaded] are distinct and each
    of them was imported. *)
Definition load_inv `{Pdoc} (st : load_state) : Prop :=
  NoDup (loaded st).*1 /\
  forall n, n ∈ (loaded st).*1 -> exists m, from_name n = Imported m.

(** [a <= b] on the key tuples, and the order it induces on items. *)
Definition key_le (a b : nat * string) : Prop :=
  fst a < fst b \/ (fst a = fst b /\ String.leb (snd a) (snd b) = true).

Definition item_le `{Pdoc} (x y : string * doc_Module) : Prop :=
  key_le (sort_key x) (sort_key y).

(** The [load] of a cache is a left inverse of its [save]: what was saved
    at a path exists there and is what [load] gives back. *)
Definition load_inverts_save {K V} (self : Cache K V) : Prop :=
  forall q v fs0 fs1,
    save self q v fs0 = Ok fs1 ->
    Fs.exists_ q fs1 = true /\ exists fs2, load self q fs1 = Ok (v, fs2).

(** [p] lies in the subtree of the directory [d]. *)
Definition under (d p : path) : Prop :=
  absolute d = absolute p /\ parts d `prefix_of` parts p.

(** The write of a rendered page, and of an index fragment, of a build. *)
Definition page_write `{Pdoc} (modules : dict doc_Module) (root : path)
    (wr : path * string) : Prop :=
  exists item,
    item ∈ modules /\
    wr = (root </> CacheHTML_key (snd item), html_module (snd item) modules).

Definition fragment_write `{Pdoc} (modules : dict doc_Module) (root : path)
    (wr : path * string) : Prop :=
  exists item,
    item ∈ modules /\
    wr = (root </> CacheIndex_key item, json_dump (make_index [item])).

(** A file that is written only when its content is not empty. *)
Definition optional_write (p : path) (data : string)
    : list (path * string) :=
  if truthy data then [(p, data)] else [].

(** An empty disk, nothing called yet. *)
Definition toy_world : world :=
  {| fs := {| nodes := ∅; journal := [] |}; calls := [] |}.

(** A cache that keeps its values as text: [save] writes the encoded value
    and nothing else, [load] writes nothing. *)
Definition text_backed {K V} (self : Cache K V) (enc : V -> string) : Prop :=
  (forall q x fs0 fs1,
      save self q x fs0 = Ok fs1 ->
      Fs.written fs1 = Fs.written fs0 ++ [(q, enc x)]) /\
  (forall q x fs0 fs1,
      load self q fs0 = Ok (x, fs1) -> Fs.written fs1 = Fs.written fs0).

Definition is_mkdir (op : fs_op) : Prop := exists q, op = OpMkdir q.

(** ** Further notions *)

(** A dotted name made of non-empty parts, without a path separator. *)
Definition well_formed_name (name : string) : Prop :=
  Str.count "/" name = 0 /\ "" ∉ Str.split "." name.

(** What exists on the first disk exists on the second. *)
Definition fs_extends (fs0 fs1 : filesystem) : Prop :=
  forall q, Fs.exists_ q fs0 = true -> Fs.exists_ q fs1 = true.

(** A call of [compute]. *)
Definition is_compute (c : call) : Prop :=
  exists root rel, c = CallCompute root rel.

(** A key of [keys] whose file, in the cache at [root], is missing on the
    disk [fs0]. *)
Definition missing_at {K} (root : path) (key_path : K -> path)
    (fs0 : filesystem) (keys : list K) (k : K) : Prop :=
  k ∈ keys /\ Fs.exists_ (root </> key_path k) fs0 = false.

(** An equation between closed terms, checked by evaluating both sides. *)
Ltac by_vm :=
  lazymatch goal with
  | |- ?l = ?r => vm_cast_no_check (@eq_refl _ r)
  end.

(** * Properties *)

(** ** Strings *)

Lemma split_length (c : ascii) (s : string) :
  length (Str.split c s) = S (Str.count c s).
Proof.
  induction s as [|a s IH]; simpl; [done|].
  destruct (Ascii.eqb a c); simpl; [by rewrite IH|].
  destruct (Str.split c s); simpl in *; lia.
Qed.

Lemma invalidated_top_level (name : string) :
  top_level name -> invalidated name = [].
Proof.
  unfold top_level, invalidated. intros Hn.
  by rewrite split_length, Hn.
Qed.

Lemma string_ltb_leb (a b : string) :
  String.ltb b a = false <-> String.leb a b = true.
Proof.
  unfold String.ltb, String.leb.
  rewrite (String.compare_antisym a b).
  destruct (String.compare b a); simpl; split; done.
Qed.

Lemma string_leb_neq_ltb (a b : string) :
  String.leb a b = true -> a <> b -> String.ltb a b = true.
Proof.
  unfold String.ltb, String.leb. intros Hle Hne.
  destruct (String.compare a b) eqn:Hc; try done.
  by apply String.compare_eq_iff in Hc.
Qed.

(** ** Dictionaries *)

Section Dict.
Context {M : Type}.
Implicit Types (d : dict M) (k : string) (v : M).

Lemma dict_set_fresh k v d :
  k ∉ d.*1 -> dict_set k v d = d ++ [(k, v)].
Proof.
  induction d as [|[k' v'] d IH]; simpl; [done|].
  intros Hk. apply not_elem_of_cons in Hk as [Hne Hk].
  destruct (String.eqb_spec k k'); [done|].
  by rewrite IH.
Qed.

Lemma dict_set_keys_present k v d :
  k ∈ d.*1 -> (dict_set k v d).*1 = d.*1.
Proof.
  induction d as [|[k' v'] d IH]; simpl.
  - by intros ?%elem_of_nil.
  - intros Hk. destruct (String.eqb_spec k k') as [->|Hne]; [done|].
    simpl. f_equal. apply IH.
    apply elem_of_cons in Hk as [?|?]; done.
Qed.

Lemma dict_set_keys k v d :
  (dict_set k v d).*1 = d.*1 \/
  ((k ∉ d.*1) /\ (dict_set k v d).*1 = d.*1 ++ [k]).
Proof.
  destruct (decide (k ∈ d.*1)) as [Hin|Hout].
  - left. by apply dict_set_keys_present.
  - right. split; [done|]. rewrite dict_set_fresh by done.
    by rewrite fmap_app.
Qed.

Lemma dict_set_NoDup k v d : NoDup d.*1 -> NoDup (dict_set k v d).*1.
Proof.
  intros Hd. destruct (dict_set_keys k v d) as [->|[Hk ->]]; [done|].
  apply NoDup_app. split_and!; [done| |apply NoDup_singleton].
  intros x Hx ->%list_elem_of_singleton. done.
Qed.

Lemma dict_of_items_acc (items acc : list (string * M)) :
  NoDup (acc ++ items).*1 ->
  fold_left (fun d kv => dict_set (fst kv) (snd kv) d) items acc
  = acc ++ items.
Proof.
  revert acc. induction items as [|[k v] items IH]; intros acc Hnd; simpl.
  - by rewrite app_nil_r.
  - rewrite dict_set_fresh.
    + rewrite IH; rewrite <- app_assoc; done.
    + rewrite fmap_app in Hnd. apply NoDup_app in Hnd as (_ & Hd & _).
      intros Hk. apply (Hd k Hk). simpl. left.
Qed.

Lemma dict_of_items_NoDup (items : list (string * M)) :
  NoDup items.*1 -> dict_of_items items = items.
Proof. intros Hnd. unfold dict_of_items. by rewrite dict_of_items_acc. Qed.

End Dict.

(** ** The loader *)

Section Loader.
Context `{Pdoc}.
Implicit Types (st : load_state) (name : string).

(** *** One step *)

Lemma load_step_skip name st :
  name ∈ invalid st -> load_step name st = Ok st.
Proof. intros Hin. unfold load_step. by rewrite decide_True. Qed.

Lemma load_step_imported name st m :
  name ∉ invalid st -> from_name name = Imported m ->
  load_step name st
  = Ok {| loaded := dict_set name m (loaded st);
          invalid := invalid st;
          attempted := attempted st ++ [name] |}.
Proof.
  intros Hout Hm. unfold load_step. by rewrite decide_False, Hm.
Qed.

Lemma load_step_import_error name st msg :
  name ∉ invalid st -> from_name name = Raises (RuntimeError msg) ->
  Str.contains "Error importing" msg = true ->
  load_step name st
  = Ok {| loaded := loaded st;
          invalid := invalid st ∪ list_to_set (invalidated name);
          attempted := attempted st ++ [name] |}.
Proof.
  intros Hout Hm Hc. unfold load_step. by rewrite decide_False, Hm, Hc.
Qed.

Lemma load_step_runtime_error name st msg :
  name ∉ invalid st -> from_name name = Raises (RuntimeError msg) ->
  Str.contains "Error importing" msg = false ->
  load_step name st
  = Ok {| loaded := loaded st;
          invalid := invalid st;
          attempted := attempted st ++ [name] |}.
Proof.
  intros Hout Hm Hc. unfold load_step. by rewrite decide_False, Hm, Hc.
Qed.

Lemma load_step_raises name st e :
  name ∉ invalid st -> from_name name = Raises e ->
  (forall msg, e <> RuntimeError msg) ->
  load_step name st = Err e.
Proof.
  intros Hout Hm He. unfold load_step. rewrite decide_False, Hm by done.
  destruct e; try done. by destruct (He msg).
Qed.

Lemma load_loop_app (l1 l2 : list string) st :
  load_loop (l1 ++ l2) st = result_bind (load_loop l1 st) (load_loop l2).
Proof.
  revert st. induction l1 as [|n l1 IH]; intros st; simpl; [done|].
  destruct (load_step n st); simpl; [apply IH|done].
Qed.

(** The record of attempts does not influence the run. *)
Lemma load_step_observable name st1 st2 :
  observable st1 = observable st2 ->
  observe (load_step name st1) = observe (load_step name st2).
Proof.
  destruct st1 as [l1 i1 a1], st2 as [l2 i2 a2].
  unfold observable. simpl. intros [= -> ->].
  unfold load_step. simpl. destruct (decide (name ∈ i2)); [done|].
  destruct (from_name name) as [m|[]]; try done.
  by destruct (Str.contains _ _).
Qed.

Lemma load_loop_observable (names : list string) st1 st2 :
  observable st1 = observable st2 ->
  observe (load_loop names st1) = observe (load_loop names st2).
Proof.
  revert st1 st2. induction names as [|n names IH]; intros st1 st2 Hobs.
  - simpl. by rewrite Hobs.
  - simpl. pose proof (load_step_observable n st1 st2 Hobs) as Hstep.
    destruct (load_step n st1) as [s1|e1], (load_step n st2) as [s2|e2];
      simpl in *; try done.
    apply IH. unfold observable in *. congruence.
Qed.

(** *** What the loop maintains *)

Lemma load_inv_start : load_inv load_start.
Proof. split; simpl; [apply NoDup_nil_2|]. by intros n ?%elem_of_nil. Qed.

Lemma load_step_inv name st st' :
  load_inv st -> load_step name st = Ok st' -> load_inv st'.
Proof.
  intros [Hnd Himp]. unfold load_step.
  destruct (decide (name ∈ invalid st)) as [Hi|Hi]; [by intros [= <-]|].
  destruct (from_name name) as [m|e] eqn:Hm.
  - intros [= <-]. split; cbn [loaded]; [by apply dict_set_NoDup|].
    intros n Hn.
    destruct (dict_set_keys name m (loaded st)) as [Heq|[_ Heq]];
      rewrite Heq in Hn; [by apply Himp|].
    apply elem_of_app in Hn as [?| ->%list_elem_of_singleton]; eauto.
  - destruct e; try done.
    destruct (Str.contains _ _); by intros [= <-].
Qed.

Lemma load_loop_inv (names : list string) st st' :
  load_inv st -> load_loop names st = Ok st' -> load_inv st'.
Proof.
  revert st. induction names as [|n names IH]; intros st Hinv; simpl.
  - by intros [= <-].
  - destruct (load_step n st) as [s|e] eqn:Hs; simpl; [|done].
    apply IH. by eapply load_step_inv.
Qed.

End Loader.

(** ** Sorting *)

Lemma string_leb_trans (a b c : string) :
  String.leb a b = true -> String.leb b c = true -> String.leb a c = true.
Proof.
  intros H1%Is_true_true H2%Is_true_true. apply Is_true_true.
  change (String.le a c). by trans b.
Qed.

Lemma key_ltb_false (a b : nat * string) :
  key_ltb b a = false <-> key_le a b.
Proof.
  unfold key_ltb, key_le. destruct a as [n s], b as [m t]. simpl.
  rewrite orb_false_iff, andb_false_iff, Nat.ltb_ge, Nat.eqb_neq, string_ltb_leb.
  split.
  - intros [Hle [Hne|Hs]]; [lia|].
    destruct (decide (n = m)); [right|left]; [done|lia].
  - intros [Hlt|[-> Hs]]; (split; [lia|]); [left; lia|by right].
Qed.

Lemma key_ltb_true (a b : nat * string) :
  key_ltb a b = true -> key_le a b.
Proof.
  unfold key_ltb, key_le. destruct a as [n s], b as [m t]. simpl.
  rewrite orb_true_iff, andb_true_iff, Nat.ltb_lt, Nat.eqb_eq.
  intros [Hlt|[-> Hs]]; [by left|right]. split; [done|].
  unfold String.ltb in Hs. unfold String.leb.
  by destruct (String.compare s t).
Qed.

Lemma key_le_trans (a b c : nat * string) :
  key_le a b -> key_le b c -> key_le a c.
Proof.
  unfold key_le. intros [?|[? ?]] [?|[? ?]]; try (left; lia).
  right. split; [lia|]. by eapply string_leb_trans.
Qed.

Lemma StronglySorted_pairs {A} (R : relation A) (l : list A) i j a b :
  StronglySorted R l -> i < j -> l !! i = Some a -> l !! j = Some b -> R a b.
Proof.
  intros Hs. revert i j. induction Hs as [|x l Hs IH Hall]; intros i j Hij.
  - by rewrite lookup_nil.
  - destruct i as [|i], j as [|j]; try lia; simpl.
    + intros [= <-] Hb. rewrite Forall_forall in Hall.
      apply Hall. eapply list_elem_of_lookup_2, Hb.
    + apply IH. lia.
Qed.

Lemma StronglySorted_filter_keep {A} (R : relation A) (P : A -> Prop)
    `{forall x, Decision (P x)} (l : list A) :
  StronglySorted R l -> StronglySorted R (filter P l).
Proof.
  induction 1 as [|x l Hs IH Hall]; [constructor|].
  rewrite filter_cons. destruct (decide (P x)); [|done].
  constructor; [done|].
  rewrite Forall_forall in *. intros y [_ Hy]%list_elem_of_filter. by apply Hall.
Qed.

Section Sorting.
Context `{Pdoc}.
Implicit Types (x y : string * doc_Module) (l : list (string * doc_Module)).

Lemma sorted_insert_perm x l : sorted_insert x l ≡ₚ x :: l.
Proof.
  induction l as [|y l IH]; simpl; [done|].
  destruct (key_ltb _ _); [|done].
  rewrite IH. apply Permutation_swap.
Qed.

Lemma sorted_perm l : sorted l ≡ₚ l.
Proof.
  induction l as [|x l IH]; simpl; [done|].
  by rewrite sorted_insert_perm, IH.
Qed.

Lemma sorted_insert_sorted x l :
  StronglySorted item_le l -> StronglySorted item_le (sorted_insert x l).
Proof.
  induction 1 as [|y l Hs IH Hall]; simpl.
  - by repeat constructor.
  - destruct (key_ltb (sort_key y) (sort_key x)) eqn:Hlt.
    + constructor; [done|].
      rewrite sorted_insert_perm. constructor; [|done].
      by apply key_ltb_true.
    + apply key_ltb_false in Hlt.
      constructor; [by constructor|]. constructor; [done|].
      eapply Forall_impl; [exact Hall|].
      intros z Hz. by eapply key_le_trans.
Qed.

Lemma sorted_sorted l : StronglySorted item_le (sorted l).
Proof.
  induction l as [|x l IH]; simpl; [constructor|].
  by apply sorted_insert_sorted.
Qed.

(** The returned mapping is [loaded], sorted, without the invalid names. *)
Lemma finalize_filter (st : load_state) :
  NoDup (loaded st).*1 ->
  finalize st = filter (fun x => fst x ∉ invalid st) (sorted (loaded st)).
Proof.
  intros Hnd. unfold finalize. apply dict_of_items_NoDup.
  eapply sublist_NoDup; [|apply fmap_sublist, sublist_filter].
  by rewrite sorted_perm.
Qed.

End Sorting.

(** ** The claims about the loader *)

Section LoaderClaims.
Context `{Pdoc}.
Implicit Types (st : load_state) (name : string).

Lemma finalize_keys st name :
  load_inv st ->
  name ∈ (finalize st).*1 <-> name ∈ (loaded st).*1 /\ name ∉ invalid st.
Proof.
  intros [Hnd _]. rewrite finalize_filter by done.
  rewrite !list_elem_of_fmap. split.
  - intros ([k m] & -> & [Hout Hin]%list_elem_of_filter). simpl in *.
    split; [|done]. rewrite sorted_perm in Hin. by exists (k, m).
  - intros [([k m] & -> & Hin) Hout]. exists (k, m). split; [done|].
    apply list_elem_of_filter. split; [done|]. by rewrite sorted_perm.
Qed.

Lemma finalize_sorted st :
  load_inv st -> StronglySorted item_le (finalize st).
Proof.
  intros [Hnd _]. rewrite finalize_filter by done.
  apply StronglySorted_filter_keep, sorted_sorted.
Qed.

Lemma finalize_NoDup st : load_inv st -> NoDup (finalize st).*1.
Proof.
  intros [Hnd _]. rewrite finalize_filter by done.
  eapply sublist_NoDup; [|apply fmap_sublist, sublist_filter].
  by rewrite sorted_perm.
Qed.

Lemma item_le_names (x y : string * doc_Module) :
  item_le x y ->
  (top_level (fst y) -> top_level (fst x)) /\
  ((top_level (fst x) <-> top_level (fst y)) ->
   String.leb (fst x) (fst y) = true).
Proof.
  unfold item_le, key_le, sort_key, top_level. simpl.
  destruct (Nat.eqb_spec (Str.count "." (fst x)) 0) as [Hx|Hx],
           (Nat.eqb_spec (Str.count "." (fst y)) 0) as [Hy|Hy];
    intros [Hlt|[Heq Hle]]; try lia; split; try done; try lia.
Qed.

(** The order of two names, decided by the key of the sort. *)
Lemma names_in_order (a b : string) :
  (top_level b -> top_level a) ->
  ((top_level a <-> top_level b) -> String.ltb a b = true) ->
  key_ltb (if Nat.eqb (Str.count "." a) 0 then 0 else 1, a)
          (if Nat.eqb (Str.count "." b) 0 then 0 else 1, b) = true.
Proof.
  unfold top_level, key_ltb. simpl.
  destruct (Nat.eqb_spec (Str.count "." a) 0) as [Ha|Ha],
           (Nat.eqb_spec (Str.count "." b) 0) as [Hb|Hb];
    intros Htop Hlt; simpl.
  - apply Hlt. done.
  - done.
  - by destruct Ha; apply Htop.
  - apply Hlt. split; intros; done.
Qed.

(** C6. The mapping the loader returns is ordered by the two-part key:
    a name without a dot comes before every name with a dot, and inside a
    tier the names increase lexicographically; when the loaded names are
    b, a.x, a and c.y (in any order of loading) the result is
    a, b, a.x, c.y. *)
Theorem load_modules_order (modules : list string) st :
  load_loop (walk_specs modules) load_start = Ok st ->
  exists result,
    load_modules modules = Ok result /\
    (forall i j a b,
        i < j -> result.*1 !! i = Some a -> result.*1 !! j = Some b ->
        (top_level b -> top_level a) /\
        ((top_level a <-> top_level b) -> String.ltb a b = true)) /\
    ((loaded st).*1 ≡ₚ ["b"; "a.x"; "a"; "c.y"] -> invalid st = ∅ ->
     result.*1 = ["a"; "b"; "a.x"; "c.y"]).
Proof.
  intros Hrun. exists (finalize st).
  assert (load_inv st) as Hinv
    by (eapply load_loop_inv; [apply load_inv_start|exact Hrun]).
  pose proof (finalize_sorted st Hinv) as Hsorted.
  pose proof (finalize_NoDup st Hinv) as Hnd.
  assert (forall i j a b,
             i < j -> (finalize st).*1 !! i = Some a ->
             (finalize st).*1 !! j = Some b ->
             (top_level b -> top_level a) /\
             ((top_level a <-> top_level b) -> String.ltb a b = true))
    as Hpairs.
  { intros i j a b Hij Ha Hb.
    assert (a <> b) as Hne.
    { intros ->. pose proof (NoDup_lookup _ _ _ _ Hnd Ha Hb). lia. }
    apply list_lookup_fmap_Some in Ha as (x & -> & Hx).
    apply list_lookup_fmap_Some in Hb as (y & -> & Hy).
    destruct (item_le_names x y) as [Htop Hle].
    { eapply StronglySorted_pairs; eauto. }
    split; [done|]. intros Hsame. by apply string_leb_neq_ltb; [apply Hle|]. }
  split_and!; [|exact Hpairs|].
  - unfold load_modules. by rewrite Hrun.
  - intros Hperm Hempty.
    assert ((finalize st).*1 ≡ₚ ["a"; "b"; "a.x"; "c.y"]) as Hp.
    { apply NoDup_Permutation;
        [done|apply (bool_decide_unpack _); vm_compute; exact I|].
      intros n. rewrite finalize_keys, Hempty, Hperm by done.
      rewrite !elem_of_cons, !elem_of_nil.
      pose proof (not_elem_of_empty (C:=gset string) n). tauto. }
    pose proof (Permutation_length Hp) as Hlen.
    destruct ((finalize st).*1) as [|n0 [|n1 [|n2 [|n3 [|n4 ns]]]]] eqn:Hk;
      try discriminate Hlen.
    assert (forall i n, [n0; n1; n2; n3] !! i = Some n ->
                        n ∈ ["a"; "b"; "a.x"; "c.y"]) as Hmem.
    { intros i n Hn. rewrite <- Hp. by eapply list_elem_of_lookup_2. }
    pose proof (Hmem 0 n0 eq_refl) as H0.
    pose proof (Hmem 1 n1 eq_refl) as H1.
    pose proof (Hmem 2 n2 eq_refl) as H2.
    pose proof (Hmem 3 n3 eq_refl) as H3.
    destruct (Hpairs 0 1 n0 n1 ltac:(lia) eq_refl eq_refl) as [T01 L01].
    destruct (Hpairs 1 2 n1 n2 ltac:(lia) eq_refl eq_refl) as [T12 L12].
    destruct (Hpairs 2 3 n2 n3 ltac:(lia) eq_refl eq_refl) as [T23 L23].
    pose proof (names_in_order n0 n1 T01 L01) as K01.
    pose proof (names_in_order n1 n2 T12 L12) as K12.
    pose proof (names_in_order n2 n3 T23 L23) as K23.
    clear - H0 H1 H2 H3 K01 K12 K23.
    rewrite !elem_of_cons, elem_of_nil in H0, H1, H2, H3.
    destruct H0 as [->|[->|[->|[->|[]]]]];
      destruct H1 as [->|[->|[->|[->|[]]]]];
      try (vm_compute in K01; discriminate K01);
      destruct H2 as [->|[->|[->|[->|[]]]]];
      try (vm_compute in K12; discriminate K12);
      destruct H3 as [->|[->|[->|[->|[]]]]];
      try (vm_compute in K23; discriminate K23).
    reflexivity.
Qed.

(** C9. When a name without a dot fails to import with an import-time
    error, the invalid set and the loaded mapping stay as they were; the
    run goes on as if the name had not been a candidate, and the name is
    not in the returned mapping. *)
Theorem top_level_import_error (before after : list string) name msg st :
  top_level name ->
  from_name name = Raises (RuntimeError msg) ->
  Str.contains "Error importing" msg = true ->
  load_loop before load_start = Ok st ->
  (exists st', load_step name st = Ok st' /\
               invalid st' = invalid st /\ loaded st' = loaded st) /\
  observe (load_loop (before ++ name :: after) load_start)
  = observe (load_loop (before ++ after) load_start) /\
  (forall st_end,
      load_loop (before ++ name :: after) load_start = Ok st_end ->
      name ∉ (finalize st_end).*1).
Proof.
  intros Htop Hraise Hmsg Hbefore.
  assert (exists st', load_step name st = Ok st' /\
                      invalid st' = invalid st /\ loaded st' = loaded st)
    as Hstep.
  { destruct (decide (name ∈ invalid st)) as [Hin|Hout].
    - exists st. by rewrite load_step_skip.
    - eexists. split; [by eapply load_step_import_error|]. simpl.
      rewrite invalidated_top_level by done. simpl.
      split; [|done]. by rewrite (right_id_L ∅ (∪)). }
  split_and!; [exact Hstep| |].
  - rewrite !load_loop_app, Hbefore. simpl.
    destruct Hstep as (st' & -> & Hi & Hl). simpl.
    apply load_loop_observable. unfold observable. by rewrite Hi, Hl.
  - intros st_end Hend Hin.
    assert (load_inv st_end) as Hinv
      by (eapply load_loop_inv; [apply load_inv_start|exact Hend]).
    apply finalize_keys in Hin as [Hin _]; [|done].
    destruct Hinv as [_ Himp]. destruct (Himp name Hin) as [m Hm].
    congruence.
Qed.

(** C2, as the code has it. A candidate that is itself in the invalid set
    is skipped without an import attempt (the state, with its record of
    attempts, is unchanged), and no name of the invalid set is a key of
    the returned mapping. *)
Theorem invalid_names_skipped_and_dropped (names : list string) st name :
  load_loop names load_start = Ok st ->
  name ∈ invalid st ->
  load_step name st = Ok st /\ name ∉ (finalize st).*1.
Proof.
  intros Hrun Hin. split; [by apply load_step_skip|].
  assert (load_inv st) as Hinv
    by (eapply load_loop_inv; [apply load_inv_start|exact Hrun]).
  rewrite finalize_keys by done. tauto.
Qed.

(** An exception outside the runtime errors ends the whole build. *)
Lemma fatal_import (modules before rest : list string) name st e :
  walk_specs modules = before ++ name :: rest ->
  load_loop before load_start = Ok st ->
  name ∉ invalid st ->
  from_name name = Raises e ->
  (forall msg, e <> RuntimeError msg) ->
  load_loop (walk_specs modules) load_start = Err e /\
  load_modules modules = Err e /\
  forall output w fs',
    Fs.mkdir output (fs w) = Ok fs' ->
    build_modules modules output w = Err e.
Proof.
  intros Hwalk Hbefore Hout Hraise Hne.
  assert (load_loop (walk_specs modules) load_start = Err e) as Hl.
  { rewrite Hwalk, load_loop_app, Hbefore. simpl.
    by rewrite (load_step_raises name st e). }
  assert (load_modules modules = Err e) as Hm.
  { unfold load_modules. by rewrite Hl. }
  split_and!; [done..|].
  intros output w fs' Hmk. unfold build_modules, bind, on_fs.
  by rewrite Hmk, Hm.
Qed.

(** C5, as the code has it. An exception raised by the import is handled
    exactly when it is a runtime error: the loop then goes on with the
    next candidate, the loaded mapping is unchanged, and the invalid set
    only grows, and not at all unless the message reads as an import
    error. Any other exception ends the loop, [load_modules] and
    [build_modules] with that exception. *)
Theorem import_failure_handling (modules before rest : list string)
    name st e :
  walk_specs modules = before ++ name :: rest ->
  load_loop before load_start = Ok st ->
  name ∉ invalid st ->
  from_name name = Raises e ->
  match e with
  | RuntimeError msg =>
      exists st',
        load_step name st = Ok st' /\
        loaded st' = loaded st /\
        invalid st ⊆ invalid st' /\
        (Str.contains "Error importing" msg = false ->
         invalid st' = invalid st) /\
        load_loop (walk_specs modules) load_start = load_loop rest st'
  | _ =>
      load_loop (walk_specs modules) load_start = Err e /\
      load_modules modules = Err e /\
      forall output w fs',
        Fs.mkdir output (fs w) = Ok fs' ->
        build_modules modules output w = Err e
  end.
Proof.
  intros Hwalk Hbefore Hout Hraise.
  destruct e as [| | | | | |msg|descr];
    try (by eapply fatal_import).
  assert (forall st', load_step name st = Ok st' ->
                      load_loop (walk_specs modules) load_start
                      = load_loop rest st') as Hgo.
  { intros st' Hs.
    rewrite Hwalk, load_loop_app, Hbefore. simpl. by rewrite Hs. }
  destruct (Str.contains "Error importing" msg) eqn:Hmsg.
  - eexists. split; [by eapply load_step_import_error|]. simpl.
    split_and!; [done|set_solver|done|].
    apply Hgo. by eapply load_step_import_error.
  - eexists. split; [by eapply load_step_runtime_error|]. simpl.
    split_and!; [done..|].
    apply Hgo. by eapply load_step_runtime_error.
Qed.

End LoaderClaims.

(** *** The loader on concrete runs *)

Lemma load_modules_order_witness :
  exists result,
    load_modules (H := toy_pdoc all_importable) ["b"; "a.x"; "a"; "c.y"]
    = Ok result /\
    result.*1 = ["a"; "b"; "a.x"; "c.y"].
Proof.
  destruct (load_modules_order (H := toy_pdoc all_importable)
              ["b"; "a.x"; "a"; "c.y"]
              (toy_state all_importable
                 [("b", "b"); ("a.x", "a.x"); ("a", "a"); ("c.y", "c.y")]
                 ∅ ["b"; "a.x"; "a"; "c.y"]))
    as (result & Hresult & _ & Hexample).
  - vm_compute. reflexivity.
  - exists result. split; [exact Hresult|].
    apply Hexample; reflexivity.
Defined.

Lemma top_level_import_error_witness :
  observe (load_loop (H := toy_pdoc (import_error_at "broken"))
             (["a"] ++ "broken" :: ["b"]) load_start)
  = observe (load_loop (H := toy_pdoc (import_error_at "broken"))
               (["a"] ++ ["b"]) load_start).
Proof.
  apply (top_level_import_error (H := toy_pdoc (import_error_at "broken"))
           ["a"] ["b"] "broken" "Error importing broken"
           (toy_state (import_error_at "broken") [("a", "a")] ∅ ["a"])).
  - reflexivity.
  - reflexivity.
  - reflexivity.
  - vm_compute. reflexivity.
Defined.

Lemma invalid_names_skipped_and_dropped_witness :
  let st := toy_state (import_error_at "a.b")
              [] (∅ ∪ list_to_set ["a"]) ["a.b"] in
  load_step "a" st = Ok st /\
  "a" ∉ (finalize st).*1.
Proof.
  apply (invalid_names_skipped_and_dropped
           (H := toy_pdoc (import_error_at "a.b")) ["a.b"]).
  - vm_compute. reflexivity.
  - apply (bool_decide_unpack _). vm_compute. exact I.
Defined.

(** C2, as stated, fails. After [a.b] failed to import, the set holds its
    ancestor [a], which covers the candidate [a.c]; yet [a.c] is imported
    and is a key of the returned mapping. *)
Lemma covered_name_is_imported :
  let P := toy_pdoc (import_error_at "a.b") in
  exists st1 st2,
    load_loop (H := P) ["a.b"] load_start = Ok st1 /\
    "a" ∈ dotted_ancestors "a.c" /\
    covered (invalid st1) "a.c" /\
    load_step (H := P) "a.c" st1 = Ok st2 /\
    ("a.c" ∉ attempted st1) /\ "a.c" ∈ attempted st2 /\
    load_loop (H := P) ["a.b"; "a.c"] load_start = Ok st2 /\
    covered (invalid st2) "a.c" /\
    "a.c" ∈ (finalize st2).*1.
Proof.
  intros P.
  assert ("a" ∈ dotted_ancestors "a.c") as Hanc.
  { apply (bool_decide_unpack _). vm_compute. exact I. }
  assert ("a" ∈ (∅ ∪ list_to_set ["a"] : gset string)) as Hin.
  { apply (bool_decide_unpack _). vm_compute. exact I. }
  exists (toy_state (import_error_at "a.b")
            [] (∅ ∪ list_to_set ["a"]) ["a.b"]),
         (toy_state (import_error_at "a.b")
            [("a.c", "a.c")] (∅ ∪ list_to_set ["a"]) ["a.b"; "a.c"]).
  split_and!.
  - vm_compute. reflexivity.
  - exact Hanc.
  - right. exists "a". by split.
  - vm_compute. reflexivity.
  - apply (bool_decide_unpack _). vm_compute. exact I.
  - apply (bool_decide_unpack _). vm_compute. exact I.
  - vm_compute. reflexivity.
  - right. exists "a". by split.
  - apply (bool_decide_unpack _). vm_compute. exact I.
Qed.

Lemma import_failure_handling_witness :
  exists st',
    load_step (H := toy_pdoc (runtime_error_at "x")) "x" load_start = Ok st' /\
    invalid st' = ∅ /\
    load_loop (H := toy_pdoc (runtime_error_at "x")) ["x"; "y"] load_start
    = load_loop (H := toy_pdoc (runtime_error_at "x")) ["y"] st'.
Proof.
  destruct (import_failure_handling (H := toy_pdoc (runtime_error_at "x"))
              ["x"; "y"] [] ["y"] "x" load_start (RuntimeError "boom"))
    as (st' & Hstep & _ & _ & Hsame & Hgo).
  - reflexivity.
  - reflexivity.
  - apply (bool_decide_unpack _). vm_compute. exact I.
  - reflexivity.
  - exists st'. split; [exact Hstep|]. split; [|exact Hgo].
    apply Hsame. reflexivity.
Defined.

(** C5, as stated, fails. A runtime error whose message is not that of an
    import error is neither pruned nor propagated: nothing enters the
    invalid set and the build goes on to load the next candidate. *)
Lemma other_runtime_error_is_swallowed :
  let P := toy_pdoc (runtime_error_at "x") in
  from_name (Pdoc := P) "x" = Raises (RuntimeError "boom") /\
  Str.contains "Error importing" "boom" = false /\
  load_loop (H := P) ["x"; "y"] load_start
  = Ok (toy_state (runtime_error_at "x") [("y", "y")] ∅ ["x"; "y"]) /\
  load_modules (H := P) ["x"; "y"] = Ok [("y", "y")].
Proof.
  intros P. split_and!.
  - reflexivity.
  - reflexivity.
  - vm_compute. reflexivity.
  - vm_compute. reflexivity.
Qed.

(** C1 on the code. When [pkg.broken] fails to import, the name put into
    the invalid set is [p], the dotted join of the first character of the
    name; the ancestor [pkg] is not put into it. For [a.b.c] the names put
    are [a] and [a..]. *)
Theorem failing_pkg_broken_invalidates_p :
  let P := toy_pdoc (import_error_at "pkg.broken") in
  dotted_ancestors "pkg.broken" = ["pkg"] /\
  invalidated "pkg.broken" = ["p"] /\
  invalidated "a.b.c" = ["a"; "a.."] /\
  exists st,
    load_step (H := P) "pkg.broken" load_start = Ok st /\
    "p" ∈ invalid st /\
    "pkg" ∉ invalid st.
Proof.
  intros P. split_and!; try reflexivity.
  exists (toy_state (import_error_at "pkg.broken")
            [] (∅ ∪ list_to_set ["p"]) ["pkg.broken"]).
  split_and!.
  - vm_compute. reflexivity.
  - apply (bool_decide_unpack _). vm_compute. exact I.
  - apply (bool_decide_unpack _). vm_compute. exact I.
Qed.

(** ** Keys and paths *)

Lemma split_no_sep (c : ascii) (s : string) :
  Str.count c s = 0 -> Str.split c s = [s].
Proof.
  induction s as [|a s IH]; simpl; [done|].
  destruct (Ascii.eqb a c); [done|]. intros Hs. by rewrite IH.
Qed.

Lemma split_nonempty (c : ascii) (s : string) : Str.split c s <> [].
Proof.
  intros Hs. apply (f_equal length) in Hs. by rewrite split_length in Hs.
Qed.

Lemma split_snoc (c : ascii) (s : string) :
  exists init final, Str.split c s = init ++ [final].
Proof.
  destruct (Str.split c s) as [|x l] eqn:Hs using rev_ind.
  - by destruct (split_nonempty c s).
  - eauto.
Qed.

(** A suffix without separator stays in the last component. *)
Lemma split_app_suffix (c : ascii) (s t : string) init final :
  Str.count c t = 0 ->
  Str.split c s = init ++ [final] ->
  Str.split c (s ++ t) = init ++ [(final ++ t)%string].
Proof.
  intros Ht. revert init final.
  induction s as [|a s IH]; intros init final; simpl.
  - intros Hs. destruct init as [|x [|y init]]; simplify_eq/=.
    by apply split_no_sep.
  - destruct (Ascii.eqb a c).
    + intros Hs. destruct init as [|x init]; simplify_eq/=.
      * by destruct (split_nonempty c s).
      * f_equal. by apply IH.
    + destruct (Str.split c s) as [|w ws] eqn:Hsplit;
        [by destruct (split_nonempty c s)|].
      intros Hs. destruct init as [|x init]; simplify_eq/=.
      * by rewrite (IH [] w eq_refl).
      * by rewrite (IH (w :: init) final eq_refl).
Qed.

Lemma split_replace (c d : ascii) (s : string) :
  Str.count d s = 0 ->
  Str.split d (Str.replace c d s) = Str.split c s.
Proof.
  induction s as [|a s IH]; simpl; [done|].
  destruct (Ascii.eqb_spec a d) as [->|Had]; [done|]. simpl. intros Hs.
  destruct (Ascii.eqb_spec a c) as [->|Hac].
  - rewrite Ascii.eqb_refl. by rewrite IH.
  - destruct (Ascii.eqb_spec a d); [done|]. by rewrite IH.
Qed.

Lemma split_parts_no_sep (c : ascii) (s x : string) :
  x ∈ Str.split c s -> Str.count c x = 0.
Proof.
  revert x. induction s as [|a s IH]; intros x; simpl.
  - by intros ->%list_elem_of_singleton.
  - destruct (Ascii.eqb_spec a c) as [->|Hac].
    + intros [->|Hx]%elem_of_cons; [done|by apply IH].
    + destruct (Str.split c s) as [|w ws] eqn:Hsplit.
      * intros ->%list_elem_of_singleton. simpl.
        by destruct (Ascii.eqb_spec a c).
      * intros [->|Hx]%elem_of_cons.
        -- simpl. destruct (Ascii.eqb_spec a c); [done|].
           apply IH. left.
        -- apply IH. by right.
Qed.

Lemma replace_get (old new : ascii) (s : string) (i : nat) :
  String.get i (Str.replace old new s)
  = (fun a => if Ascii.eqb a old then new else a) <$> String.get i s.
Proof.
  revert i. induction s as [|a s IH]; intros i; simpl; [done|].
  destruct i as [|i]; [done|]. apply IH.
Qed.

Lemma replace_length (old new : ascii) (s : string) :
  String.length (Str.replace old new s) = String.length s.
Proof. induction s as [|a s IH]; simpl; [done|]. by rewrite IH. Qed.

Lemma suffixed_not_dropped (x ext : string) :
  ext <> "" -> ext <> "." -> ~ dropped_part (x ++ ext).
Proof.
  intros He1 He2 [Hd|Hd].
  - destruct x; simpl in Hd; [done|discriminate].
  - destruct x as [|a [|b x]]; simpl in Hd.
    + done.
    + injection Hd as _ Hd. done.
    + discriminate.
Qed.

(** The components of [Path (r ++ ext)]: those of [r], the last of them
    with the extension. *)
Lemma Path_with_extension (r ext : string) init final :
  Str.count "/" ext = 0 ->
  ext <> "" -> ext <> "." ->
  Str.split "/" r = init ++ [final] ->
  parts (Path (r ++ ext))
  = filter (fun c => ~ dropped_part c) init ++ [(final ++ ext)%string].
Proof.
  intros Hsep He1 He2 Hr. unfold Path. simpl.
  rewrite (split_app_suffix _ r ext init final) by done.
  rewrite filter_app, filter_cons_True; [done|].
  by apply suffixed_not_dropped.
Qed.

Lemma filter_agree {A} (P Q : A -> Prop) `{forall x, Decision (P x)}
    `{forall x, Decision (Q x)} (l : list A) :
  (forall x, x ∈ l -> P x <-> Q x) -> filter P l = filter Q l.
Proof.
  induction l as [|x l IH]; intros Hl; [done|].
  rewrite !filter_cons.
  assert (filter P l = filter Q l) as ->.
  { apply IH. intros y Hy. apply Hl. by right. }
  destruct (Hl x) as [H1 H2]; [left|].
  destruct (decide (P x)), (decide (Q x)); tauto.
Qed.

Lemma prefix_one (c a : ascii) (s : string) :
  String.prefix (String c "") (String a s) = Ascii.eqb c a.
Proof.
  cbn [String.prefix].
  destruct (ascii_dec c a) as [->|Hne].
  - rewrite Ascii.eqb_refl. by destruct s.
  - symmetry. by apply Ascii.eqb_neq.
Qed.

Lemma prefix_slash_replace (s ext : string) :
  Str.count "/" s = 0 -> String.prefix "/" ext = false ->
  String.prefix "/" (Str.replace "." "/" s ++ ext) = String.prefix "." s.
Proof.
  intros Hs Hp. destruct s as [|a s]; [exact Hp|].
  change (Str.replace "." "/" (String a s) ++ ext)%string
    with (String (if Ascii.eqb a "." then "/"%char else a)
                 (Str.replace "." "/" s ++ ext)).
  rewrite !prefix_one. simpl in Hs.
  destruct (Ascii.eqb_spec a ".") as [->|Hd]; [done|].
  destruct (Ascii.eqb_spec a "/") as [->|Ha]; [done|].
  destruct (Ascii.eqb_spec "/" a), (Ascii.eqb_spec "." a); congruence.
Qed.

Section Keys.
Context `{Pdoc}.

(** The last component of the path of a page carries the extension. *)
Lemma CacheHTML_key_last (m : doc_Module) :
  exists x, last (parts (CacheHTML_key m)) = Some (x ++ ".html")%string.
Proof.
  destruct (split_snoc "/" (Str.replace "." "/" (fullname m)))
    as (init & final & Hs).
  exists final. unfold CacheHTML_key.
  rewrite (Path_with_extension _ _ init final) by done.
  apply last_snoc.
Qed.

(** C8. The path of a page is [Path] of the name with every dot turned
    into a separator, followed by [.html]: its components are the dotted
    parts of the name, the last one with the extension, so that [pkg.sub]
    is stored at the relative path [pkg/sub.html]. *)
Theorem CacheHTML_key_mirrors_name (m : doc_Module) init final :
  Str.count "/" (fullname m) = 0 ->
  Str.split "." (fullname m) = init ++ [final] ->
  (exists r,
      CacheHTML_key m = Path (r ++ ".html") /\
      String.length r = String.length (fullname m) /\
      forall i, String.get i r
                = (fun a => if Ascii.eqb a "." then "/"%char else a)
                    <$> String.get i (fullname m)) /\
  parts (CacheHTML_key m)
  = filter (fun c => c <> "") init ++ [(final ++ ".html")%string] /\
  absolute (CacheHTML_key m) = String.prefix "." (fullname m) /\
  (fullname m = "pkg.sub" ->
   CacheHTML_key m = Path "pkg/sub.html" /\
   CacheHTML_key m = mkPath false ["pkg"; "sub.html"]).
Proof.
  intros Hslash Hsplit. split_and!.
  - exists (Str.replace "." "/" (fullname m)). split_and!; [done| |].
    + apply replace_length.
    + intros i. apply replace_get.
  - unfold CacheHTML_key.
    rewrite (Path_with_extension _ _ init final); [|done..|].
    + f_equal. apply filter_agree. intros x Hx. unfold dropped_part.
      assert (Str.count "." x = 0) as Hdot.
      { apply (split_parts_no_sep "." (fullname m)).
        rewrite Hsplit. apply elem_of_app. by left. }
      split; [tauto|]. intros Hne [?| ->]; done.
    + by rewrite split_replace.
  - unfold CacheHTML_key, Path. simpl. by apply prefix_slash_replace.
  - intros Hname. unfold CacheHTML_key. by rewrite Hname.
Qed.

End Keys.

Lemma CacheHTML_key_mirrors_name_witness :
  CacheHTML_key (H := toy_pdoc all_importable) "pkg.sub"
  = mkPath false ["pkg"; "sub.html"].
Proof.
  destruct (CacheHTML_key_mirrors_name (H := toy_pdoc all_importable)
              "pkg.sub" ["pkg"] "sub") as (_ & Hparts & Habs & _).
  - reflexivity.
  - reflexivity.
  - destruct (CacheHTML_key (H := toy_pdoc all_importable) "pkg.sub")
      as [a ps]. simpl in *. by rewrite Hparts, Habs.
Defined.

(** ** The disk *)

Lemma written_app (fs0 : filesystem) (ops : list fs_op) :
  Fs.written {| nodes := nodes fs0; journal := journal fs0 ++ ops |}
  = Fs.written fs0 ++ Fs.written {| nodes := nodes fs0; journal := ops |}.
Proof. unfold Fs.written. simpl. apply omap_app. Qed.

Lemma mkdir_from_written (abs : bool) (seen todo : list string) fs0 fs1 :
  Fs.mkdir_from abs seen todo fs0 = Ok fs1 ->
  Fs.written fs1 = Fs.written fs0.
Proof.
  revert seen fs0. induction todo as [|c todo IH]; intros seen fs0; simpl.
  - by intros [= ->].
  - destruct (nodes fs0 !! _) as [[|data]|]; [by apply IH|done|].
    intros Hmk. apply IH in Hmk. rewrite Hmk.
    unfold Fs.written. simpl. rewrite omap_app. simpl. by rewrite app_nil_r.
Qed.

Lemma mkdir_written (p : path) fs0 fs1 :
  Fs.mkdir p fs0 = Ok fs1 -> Fs.written fs1 = Fs.written fs0.
Proof. apply mkdir_from_written. Qed.

Lemma write_text_written (p : path) (data : string) fs0 fs1 :
  Fs.write_text p data fs0 = Ok fs1 ->
  Fs.written fs1 = Fs.written fs0 ++ [(p, data)].
Proof.
  unfold Fs.write_text.
  assert (forall fs', Ok {| nodes := <[p := File data]> (nodes fs0);
                            journal := journal fs0 ++ [OpWrite p data] |}
                      = Ok fs' ->
                      Fs.written fs' = Fs.written fs0 ++ [(p, data)]) as Hw.
  { intros fs' [= <-]. unfold Fs.written. simpl. by rewrite omap_app. }
  destruct (Fs.lookup p fs0) as [[|d]|];
    destruct (Fs.lookup (parent p) fs0) as [[|d']|]; try done; apply Hw.
Qed.

Lemma write_text_lookup (p : path) (data : string) fs0 fs1 :
  Fs.write_text p data fs0 = Ok fs1 ->
  Fs.lookup p fs1 = Some (File data).
Proof.
  unfold Fs.write_text, Fs.lookup.
  destruct (parts p) as [|c ps] eqn:Hp; [done|].
  assert (forall fs', Ok {| nodes := <[p := File data]> (nodes fs0);
                            journal := journal fs0 ++ [OpWrite p data] |}
                      = Ok fs' ->
                      nodes fs' !! p = Some (File data)) as Hw.
  { intros fs' [= <-]. simpl. apply lookup_insert_eq. }
  destruct (nodes fs0 !! p) as [[|d]|];
    destruct (match parts (parent p) with
              | [] => Some Dir
              | _ => nodes fs0 !! parent p
              end) as [[|d']|]; try done; apply Hw.
Qed.

Lemma read_text_written (p : path) fs0 fs1 data :
  Fs.read_text p fs0 = Ok (data, fs1) -> Fs.written fs1 = Fs.written fs0.
Proof.
  unfold Fs.read_text. destruct (Fs.lookup p fs0) as [[|d]|]; try done.
  intros [= <- <-]. unfold Fs.written. simpl. rewrite omap_app. simpl.
  by rewrite app_nil_r.
Qed.

(** ** The cache *)

Lemma bind_Ok {A B} (m : io A) (f : A -> io B) w b w' :
  bind m f w = Ok (b, w') ->
  exists a w1, m w = Ok (a, w1) /\ f a w1 = Ok (b, w').
Proof.
  unfold bind. destruct (m w) as [[a w1]|e]; [|done]. eauto.
Qed.

Lemma on_fs_Ok (f : filesystem -> result filesystem) w u w' :
  on_fs f w = Ok (u, w') ->
  f (fs w) = Ok (fs w') /\ calls w' = calls w.
Proof.
  unfold on_fs. destruct (f (fs w)) as [fs1|e]; [|done].
  by intros [= <- <-].
Qed.

Section CacheLaws.
Context {K V : Type}.
Implicit Types (self : Cache K V) (k : K) (w : world).

(** C4. On a key whose derived path does not exist, [get] calls [compute]
    once, stores the value at the derived path after creating the parent
    directories, and returns it; a second [get] returns the same value and
    calls [compute] no more, when [load] is a left inverse of [save]. *)
Theorem get_memoizes self k w fs1 fs2 :
  let p := cache_path self </> key self k in
  let w' := {| fs := fs2;
               calls := calls w ++ [CallCompute (cache_path self)
                                                (key self k)] |} in
  load_inverts_save self ->
  Fs.exists_ p (fs w) = false ->
  Fs.mkdir (parent p) (fs w) = Ok fs1 ->
  save self p (compute self k) fs1 = Ok fs2 ->
  Cache.get self k w = Ok (compute self k, w') /\
  exists fs3,
    Cache.get self k w'
    = Ok (compute self k, {| fs := fs3; calls := calls w' |}).
Proof.
  intros p w' Hinv Hmiss Hmk Hsave.
  destruct (Hinv p (compute self k) fs1 fs2 Hsave) as [Hex [fs3 Hload]].
  split.
  - unfold Cache.get, Cache.getitem. fold p. rewrite Hmiss. simpl.
    unfold Cache.call_compute, Cache.setitem, bind, record_call, ret, on_fs.
    fold p. simpl. rewrite Hmk. simpl. by rewrite Hsave.
  - exists fs3. unfold Cache.get, Cache.getitem. fold p.
    subst w'. simpl. rewrite Hex. simpl.
    unfold from_fs. simpl. by rewrite Hload.
Qed.

End CacheLaws.

Section HtmlCache.
Context `{Pdoc}.

Lemma CacheHTML_load_inverts_save (root : path) (modules : dict doc_Module) :
  load_inverts_save (CacheHTML root modules).
Proof.
  intros q v fs0 fs1 Hsave. simpl in *.
  pose proof (write_text_lookup q v fs0 fs1 Hsave) as Hlook.
  unfold Fs.exists_, Fs.read_text. rewrite Hlook. eauto.
Qed.

End HtmlCache.

Lemma get_memoizes_witness :
  let modules := [("pkg.sub", "pkg.sub")] in
  let cache := CacheHTML (H := toy_pdoc all_importable) (Path "out") modules in
  exists w',
    Cache.get cache "pkg.sub" toy_world = Ok ("<html>pkg.sub", w') /\
    calls w' = [CallCompute (Path "out") (Path "pkg/sub.html")] /\
    Fs.written (fs w') = [(Path "out/pkg/sub.html", "<html>pkg.sub")] /\
    exists fs3,
      Cache.get cache "pkg.sub" w'
      = Ok ("<html>pkg.sub", {| fs := fs3; calls := calls w' |}).
Proof.
  intros modules cache.
  assert (exists fs1 fs2,
             Fs.mkdir (Path "out/pkg") (fs toy_world) = Ok fs1 /\
             Fs.write_text (Path "out/pkg/sub.html") "<html>pkg.sub" fs1
             = Ok fs2) as (fs1 & fs2 & Hmk & Hsave).
  { exists (match Fs.mkdir (Path "out/pkg") (fs toy_world) with
            | Ok f => f
            | Err _ => fs toy_world
            end).
    exists (match result_bind (Fs.mkdir (Path "out/pkg") (fs toy_world))
                    (Fs.write_text (Path "out/pkg/sub.html")
                                   "<html>pkg.sub") with
            | Ok f => f
            | Err _ => fs toy_world
            end).
    split; by_vm. }
  destruct (get_memoizes cache "pkg.sub" toy_world fs1 fs2)
    as [Hfirst Hsecond].
  - apply CacheHTML_load_inverts_save.
  - by_vm.
  - exact Hmk.
  - exact Hsave.
  - eexists. split; [exact Hfirst|]. split; [reflexivity|].
    split; [|exact Hsecond]. simpl.
    rewrite (write_text_written _ _ _ _ Hsave), (mkdir_written _ _ _ Hmk).
    reflexivity.
Defined.

(** ** Directories *)

Lemma mkdir_from_journal (abs : bool) (seen todo : list string) fs0 fs1 :
  Fs.mkdir_from abs seen todo fs0 = Ok fs1 ->
  exists ops, journal fs1 = journal fs0 ++ ops /\ Forall is_mkdir ops.
Proof.
  revert seen fs0. induction todo as [|c todo IH]; intros seen fs0; simpl.
  - intros [= ->]. exists []. by rewrite app_nil_r.
  - destruct (nodes fs0 !! _) as [[|data]|]; [by apply IH|done|].
    intros (ops & Hj & Hops)%IH. simpl in Hj.
    exists (OpMkdir (mkPath abs (seen ++ [c])) :: ops).
    split; [by rewrite Hj, <- app_assoc|].
    constructor; [by eexists|done].
Qed.

Lemma mkdir_from_is_dir (abs : bool) (seen todo : list string) fs0 fs1 :
  Fs.mkdir_from abs seen todo fs0 = Ok fs1 ->
  todo <> [] ->
  nodes fs1 !! mkPath abs (seen ++ todo) = Some Dir.
Proof.
  revert seen fs0. induction todo as [|c todo IH]; intros seen fs0; [done|].
  simpl. intros Hmk _.
  destruct (nodes fs0 !! mkPath abs (seen ++ [c])) as [[|data]|] eqn:Hq;
    [| done |].
  - destruct todo as [|c' todo].
    + simpl in Hmk. by injection Hmk as <-.
    + rewrite (cons_middle c), app_assoc. by eapply IH.
  - destruct todo as [|c' todo].
    + simpl in Hmk. injection Hmk as <-. simpl. apply lookup_insert_eq.
    + rewrite (cons_middle c), app_assoc. by eapply IH.
Qed.

Lemma mkdir_is_dir (p : path) fs0 fs1 :
  Fs.mkdir p fs0 = Ok fs1 -> Fs.is_dir p fs1 = true.
Proof.
  unfold Fs.mkdir, Fs.is_dir, Fs.lookup. destruct p as [abs ps]. simpl.
  intros Hmk. destruct ps as [|c ps]; [done|].
  pose proof (mkdir_from_is_dir abs [] (c :: ps) fs0 fs1 Hmk) as Hd.
  simpl in Hd. by rewrite Hd.
Qed.

(** ** What a build writes *)

Section CacheWrites.
Context {K V : Type}.
Implicit Types (self : Cache K V) (k : K) (w : world).

Lemma setitem_written self enc k v w w' :
  text_backed self enc ->
  Cache.setitem self k v w = Ok (tt, w') ->
  Fs.written (fs w')
  = Fs.written (fs w) ++ [(cache_path self </> key self k, enc v)].
Proof.
  intros [Hsave _]. unfold Cache.setitem.
  intros (u & w1 & [Hmk _]%on_fs_Ok & [Hs _]%on_fs_Ok)%bind_Ok.
  apply Hsave in Hs. rewrite Hs. by rewrite (mkdir_written _ _ _ Hmk).
Qed.

Lemma get_written self enc k v w w' :
  text_backed self enc ->
  Cache.get self k w = Ok (v, w') ->
  Fs.written (fs w') = Fs.written (fs w) \/
  Fs.written (fs w')
  = Fs.written (fs w) ++ [(cache_path self </> key self k,
                           enc (compute self k))].
Proof.
  intros Htext. unfold Cache.get.
  destruct (Cache.getitem self k w) as [[v0 w0]|e] eqn:Hget.
  - intros [= -> ->]. left. unfold Cache.getitem in Hget.
    destruct (negb _); [done|]. unfold from_fs in Hget.
    destruct (load self _ (fs w)) as [[x fs1]|] eqn:Hload; [|done].
    injection Hget as -> <-. simpl. destruct Htext as [_ Hl]. by eapply Hl.
  - destruct e; try done. intros Hmiss. right.
    apply bind_Ok in Hmiss as (value & w1 & Hc & Hmiss).
    apply bind_Ok in Hmiss as ([] & w2 & Hs & Hmiss).
    injection Hmiss as <- <-.
    unfold Cache.call_compute, bind, record_call, ret in Hc.
    injection Hc as <- <-.
    by rewrite (setitem_written self enc k _ _ _ Htext Hs).
Qed.

End CacheWrites.

Section Build.
Context `{Pdoc}.
Implicit Types (g : globals) (modules : dict doc_Module) (w : world).

Lemma CacheHTML_text_backed (root : path) modules :
  text_backed (CacheHTML root modules) (fun value => value).
Proof.
  split; simpl.
  - intros q x fs0 fs1. apply write_text_written.
  - intros q x fs0 fs1. apply read_text_written.
Qed.

Lemma CacheIndex_text_backed (root : path) modules :
  text_backed (CacheIndex root modules) json_dump.
Proof.
  split; simpl.
  - intros q x fs0 fs1. apply write_text_written.
  - intros q x fs0 fs1. unfold result_bind.
    destruct (Fs.read_text q fs0) as [[text fs']|] eqn:Hread; [|done].
    simpl. destruct (json_load text); [|done].
    intros [= _ <-]. by eapply read_text_written.
Qed.

(** The loop of [render_modules] over a part of the modules. *)
Lemma render_loop_writes modules (root : path) (items : dict doc_Module) w w' :
  items ⊆ modules ->
  for_each items (fun item =>
    let module := snd item in
    let* present := Cache.contains (CacheHTML root modules) module in
    if negb present then
      let* value := Cache.call_compute (CacheHTML root modules) module in
      Cache.setitem (CacheHTML root modules) module value
    else ret tt) w = Ok (tt, w') ->
  exists pages,
    Fs.written (fs w') = Fs.written (fs w) ++ pages /\
    Forall (page_write modules root) pages.
Proof.
  revert w. induction items as [|item items IH]; intros w Hsub; simpl.
  - intros [= <-]. exists []. by rewrite app_nil_r.
  - intros ([] & w1 & Hbody & Hrest)%bind_Ok.
    apply IH in Hrest as (pages & Hw & Hpages); [|set_solver].
    apply bind_Ok in Hbody as (present & w0 & Hc & Hbody).
    unfold Cache.contains in Hc. injection Hc as <- <-.
    destruct (negb _).
    + apply bind_Ok in Hbody as (value & w2 & Hc & Hset).
      unfold Cache.call_compute, bind, record_call, ret in Hc.
      injection Hc as <- <-.
      apply (setitem_written _ _ _ _ _ _ (CacheHTML_text_backed root modules))
        in Hset.
      simpl in Hset. eexists (_ :: pages). split.
      * rewrite Hw, Hset, <- app_assoc. reflexivity.
      * constructor; [|done]. exists item. split; [set_solver|done].
    + injection Hbody as <-. by exists pages.
Qed.

(** The comprehension of [search_index] over a part of the modules. *)
Lemma gather_writes modules (root : path) (items : dict doc_Module)
    (index : list entry) w w' :
  items ⊆ modules ->
  gather items (fun k => Cache.get (CacheIndex root modules) k) w
  = Ok (index, w') ->
  exists frags,
    Fs.written (fs w') = Fs.written (fs w) ++ frags /\
    Forall (fragment_write modules root) frags.
Proof.
  revert w index. induction items as [|item items IH]; intros w index Hsub;
    simpl.
  - intros [= <- <-]. exists []. by rewrite app_nil_r.
  - intros (ys & w1 & Hget & Hrest)%bind_Ok.
    apply bind_Ok in Hrest as (rest & w2 & Hrest & Hret).
    injection Hret as <- <-.
    apply IH in Hrest as (frags & Hw & Hfrags); [|set_solver].
    apply (get_written _ _ _ _ _ _ (CacheIndex_text_backed root modules))
      in Hget as [Hsame|Hnew].
    + exists frags. by rewrite Hw, Hsame.
    + simpl in Hnew. eexists (_ :: frags). split.
      * rewrite Hw, Hnew, <- app_assoc. reflexivity.
      * constructor; [|done]. exists item. split; [set_solver|done].
Qed.

(** With the search switched off, [search_index] is the construction of
    the cache and nothing more. *)
Lemma search_index_disabled g modules (cache_path : path) w :
  search g = false ->
  search_index g modules cache_path w
  = match Fs.mkdir cache_path (fs w) with
    | Ok fs1 => Ok ("", {| fs := fs1; calls := calls w ++ [CallRootRender] |})
    | Err e => Err e
    end.
Proof.
  intros Hoff.
  unfold search_index, CacheIndex_init, Cache.init, bind, on_fs, record_call,
    ret.
  destruct (Fs.mkdir cache_path (fs w)); simpl; [|done]. by rewrite Hoff.
Qed.

Lemma search_index_writes g modules (cache_path : path) w w' payload :
  search_index g modules cache_path w = Ok (payload, w') ->
  exists frags,
    Fs.written (fs w') = Fs.written (fs w) ++ frags /\
    Forall (fragment_write modules cache_path) frags /\
    (search g = false -> frags = [] /\ payload = "").
Proof.
  destruct (search g) eqn:Hs.
  - unfold search_index. rewrite Hs. simpl.
    intros (cache & w1 & Hinit & Hrest)%bind_Ok.
    unfold CacheIndex_init in Hinit.
    apply bind_Ok in Hinit as ([] & w0 & [Hmk _]%on_fs_Ok & Hinit).
    unfold bind, record_call, ret in Hinit. injection Hinit as <- <-.
    apply bind_Ok in Hrest as (index & w2 & Hgather & Hrest).
    unfold bind, record_call, ret in Hrest. injection Hrest as <- <-.
    apply gather_writes in Hgather as (frags & Hw & Hfrags); [|done].
    simpl in *. exists frags. split_and!; [|done..].
    by rewrite Hw, (mkdir_written _ _ _ Hmk).
  - rewrite search_index_disabled by done.
    destruct (Fs.mkdir cache_path (fs w)) as [fs1|] eqn:Hmk; [|done].
    intros [= <- <-]. exists []. simpl.
    by rewrite app_nil_r, (mkdir_written _ _ _ Hmk).
Qed.

Lemma optional_write_written (p : path) (data : string) w w' :
  (if truthy data then on_fs (Fs.write_text p data) else ret tt) w
  = Ok (tt, w') ->
  Fs.written (fs w') = Fs.written (fs w) ++ optional_write p data.
Proof.
  unfold optional_write. destruct (truthy data).
  - intros [Hw _]%on_fs_Ok. by apply write_text_written.
  - intros [= <-]. by rewrite app_nil_r.
Qed.

(** Everything [render_modules] writes, in order: pages of the modules
    under the output root, the landing page unless it is empty, index
    fragments under [.cache/search], the search payload unless it is
    empty. *)
Lemma render_modules_writes g modules (output : path) w w' :
  render_modules g modules output w = Ok (tt, w') ->
  exists pages frags payload,
    Fs.written (fs w')
    = Fs.written (fs w) ++ pages
      ++ optional_write (output </> Path "index.html") (html_index modules)
      ++ frags
      ++ optional_write (output </> Path "search.js") payload /\
    Forall (page_write modules output) pages /\
    Forall (fragment_write modules
              (output </> Path ".cache" </> Path "search")) frags /\
    (search g = false -> frags = [] /\ payload = "").
Proof.
  unfold render_modules.
  intros (cache & w1 & Hinit & Hrest)%bind_Ok.
  unfold CacheHTML_init in Hinit.
  apply bind_Ok in Hinit as ([] & w0 & [Hmk _]%on_fs_Ok & Hinit).
  injection Hinit as <- <-.
  apply bind_Ok in Hrest as ([] & w2 & Hloop & Hrest).
  apply render_loop_writes in Hloop as (pages & Hw2 & Hpages); [|done].
  apply bind_Ok in Hrest as ([] & w3 & Hcall & Hrest).
  unfold record_call in Hcall. injection Hcall as <-.
  apply bind_Ok in Hrest as ([] & w4 & Hindex & Hrest).
  apply optional_write_written in Hindex. simpl in Hindex.
  apply bind_Ok in Hrest as (payload & w5 & Hsearch & Hjs).
  apply search_index_writes in Hsearch as (frags & Hw5 & Hfrags & Hoff).
  apply optional_write_written in Hjs.
  exists pages, frags, payload. split_and!; [|done..].
  rewrite Hjs, Hw5, Hindex, Hw2, (mkdir_written _ _ _ Hmk).
  by rewrite <- !app_assoc.
Qed.

End Build.

(** ** The layout of the output *)

Lemma last_joinpath (p q : path) :
  parts q <> [] -> last (parts (p </> q)) = last (parts q).
Proof.
  intros Hq. unfold joinpath. destruct (absolute q); [done|]. simpl.
  rewrite last_app. by destruct (last (parts q)) eqn:Hl;
    [|apply last_None in Hl].
Qed.

Lemma html_is_not_search_js (x : string) : (x ++ ".html")%string <> "search.js".
Proof.
  intros Hx.
  do 10 (destruct x as [|? x]; [by simplify_eq/=|]). by simplify_eq/=.
Qed.

Lemma under_joinpath (d q : path) :
  absolute q = false -> under d (d </> q).
Proof.
  intros Hq. unfold under, joinpath. rewrite Hq. simpl.
  split; [done|]. by apply prefix_app_r.
Qed.

Section Layout.
Context `{Pdoc}.
Implicit Types (g : globals) (modules : dict doc_Module) (w : world).

Lemma page_is_not_search_js (output : path) (m : doc_Module) :
  output </> CacheHTML_key m <> output </> Path "search.js".
Proof.
  intros Heq. apply (f_equal (fun p => last (parts p))) in Heq.
  destruct (CacheHTML_key_last m) as [x Hx].
  rewrite !last_joinpath in Heq; [| done |].
  - rewrite Hx in Heq. injection Heq as Heq.
    by apply html_is_not_search_js in Heq.
  - intros Hnil. by rewrite Hnil in Hx.
Qed.

(** C10. [search_index] builds the cache of fragments before it looks at
    the search option: with the option off, the root of the cache is
    created on the disk (it is a directory afterwards) and the template is
    rendered once; and when the root cannot be created the call fails. *)
Theorem search_index_constructs_first g modules (cache_path : path) w :
  search g = false ->
  (forall fs1,
      Fs.mkdir cache_path (fs w) = Ok fs1 ->
      search_index g modules cache_path w
      = Ok ("", {| fs := fs1; calls := calls w ++ [CallRootRender] |}) /\
      Fs.is_dir cache_path fs1 = true) /\
  (forall e,
      Fs.mkdir cache_path (fs w) = Err e ->
      search_index g modules cache_path w = Err e).
Proof.
  intros Hoff. split.
  - intros fs1 Hmk. split; [|by eapply mkdir_is_dir].
    by rewrite search_index_disabled, Hmk.
  - intros e Hmk. by rewrite search_index_disabled, Hmk.
Qed.

(** C7. With the search switched off, [search_index] returns the empty
    string; its whole effect is the construction of the cache, which only
    makes directories: nothing is read from or written to the cache and
    [compute] is not called. [render_modules] then writes pages and the
    landing page only, and no [search.js]. *)
Theorem search_disabled_stores_nothing g modules (output : path) w w' :
  search g = false ->
  render_modules g modules output w = Ok (tt, w') ->
  (forall cache_path w0,
      search_index g modules cache_path w0
      = match Fs.mkdir cache_path (fs w0) with
        | Ok fs1 =>
            Ok ("", {| fs := fs1; calls := calls w0 ++ [CallRootRender] |})
        | Err e => Err e
        end) /\
  (forall cache_path w0 fs1,
      Fs.mkdir cache_path (fs w0) = Ok fs1 ->
      exists ops, journal fs1 = journal (fs w0) ++ ops /\
                  Forall is_mkdir ops) /\
  exists new,
    Fs.written (fs w') = Fs.written (fs w) ++ new /\
    (forall data, (output </> Path "search.js", data) ∉ new) /\
    Forall (fun wr => page_write modules output wr \/
                      wr = (output </> Path "index.html", html_index modules))
           new.
Proof.
  intros Hoff Hrun. split_and!.
  - intros cache_path w0. by apply search_index_disabled.
  - intros cache_path w0 fs1 Hmk. by eapply mkdir_from_journal.
  - apply render_modules_writes in Hrun
      as (pages & frags & payload & Hw & Hpages & _ & Hnone).
    destruct (Hnone Hoff) as [-> ->].
    change (optional_write (output </> Path "search.js") "") with
      (@nil (path * string)) in Hw.
    rewrite !app_nil_r in Hw.
    exists (pages ++ optional_write (output </> Path "index.html")
                       (html_index modules)).
    assert (Forall (fun wr => page_write modules output wr \/
                      wr = (output </> Path "index.html", html_index modules))
              (pages ++ optional_write (output </> Path "index.html")
                          (html_index modules))) as Hall.
    { apply Forall_app. split.
      - eapply Forall_impl; [exact Hpages|]. by left.
      - unfold optional_write.
        destruct (truthy _); [|constructor].
        constructor; [by right|constructor]. }
    split_and!; [done| |done].
    intros data Hin. rewrite Forall_forall in Hall.
    destruct (Hall _ Hin) as [(item & _ & Heq)|Heq].
    + apply (f_equal fst) in Heq. cbn [fst] in Heq. symmetry in Heq.
      by apply page_is_not_search_js in Heq.
    + apply (f_equal (fun wr => last (parts (fst wr)))) in Heq.
      cbn [fst] in Heq. by rewrite !last_joinpath in Heq.
Qed.

(** C3, as the code has it. The cache of pages is rooted at the output
    root itself and the cache of fragments at [.cache/search] under it.
    A build writes, in this order: pages at the output root, each at the
    path derived from the name of its module; [index.html] at the output
    root, unless its content is empty; fragments in the cache of
    fragments, which lie under [.cache] when their key is relative;
    [search.js] at the output root, unless its content is empty. The
    content of [search.js] is what [search_index] returned, called on the
    world the earlier stages left. *)
Theorem build_layout g modules (output : path) w w' :
  render_modules g modules output w = Ok (tt, w') ->
  cache_path (CacheHTML output modules) = output /\
  under (output </> Path ".cache") (output </> Path ".cache" </> Path "search") /\
  (forall item,
      absolute (CacheIndex_key item) = false ->
      under (output </> Path ".cache")
            (output </> Path ".cache" </> Path "search"
               </> CacheIndex_key item)) /\
  (forall p, optional_write p "" = []) /\
  exists pages frags payload,
    Fs.written (fs w')
    = Fs.written (fs w) ++ pages
      ++ optional_write (output </> Path "index.html") (html_index modules)
      ++ frags
      ++ optional_write (output </> Path "search.js") payload /\
    Forall (page_write modules output) pages /\
    Forall (fragment_write modules
              (output </> Path ".cache" </> Path "search")) frags /\
    (search g = false -> payload = "") /\
    exists w1 w2 w4 w5,
      Cache.init output w = Ok (tt, w1) /\
      for_each modules (fun item =>
        let module := snd item in
        let* present := Cache.contains (CacheHTML output modules) module in
        if negb present then
          let* value :=
            Cache.call_compute (CacheHTML output modules) module in
          Cache.setitem (CacheHTML output modules) module value
        else ret tt) w1 = Ok (tt, w2) /\
      (if truthy (html_index modules)
       then on_fs (Fs.write_text (output </> Path "index.html")
                                 (html_index modules))
       else ret tt) {| fs := fs w2; calls := calls w2 ++ [CallHtmlIndex] |}
      = Ok (tt, w4) /\
      search_index g modules (output </> Path ".cache" </> Path "search") w4
      = Ok (payload, w5) /\
      (if truthy payload
       then on_fs (Fs.write_text (output </> Path "search.js") payload)
       else ret tt) w5 = Ok (tt, w').
Proof.
  intros Hrun. split_and!.
  - done.
  - by apply under_joinpath.
  - intros item Hrel.
    destruct (under_joinpath (output </> Path ".cache") (Path "search"))
      as [Habs Hpre]; [done|].
    destruct (under_joinpath (output </> Path ".cache" </> Path "search")
                (CacheIndex_key item) Hrel) as [Habs' Hpre'].
    split; [congruence|]. by etrans.
  - done.
  - unfold render_modules in Hrun.
    apply bind_Ok in Hrun as (cache & w1 & Hinit & Hrest).
    unfold CacheHTML_init in Hinit.
    apply bind_Ok in Hinit as ([] & w0 & Hmk & Hinit).
    injection Hinit as <- <-.
    apply bind_Ok in Hrest as ([] & w2 & Hloop & Hrest).
    apply bind_Ok in Hrest as ([] & w3 & Hcall & Hrest).
    unfold record_call in Hcall. injection Hcall as <-.
    apply bind_Ok in Hrest as ([] & w4 & Hindex & Hrest).
    apply bind_Ok in Hrest as (payload & w5 & Hsearch & Hjs).
    destruct (render_loop_writes modules output modules w0 w2)
      as (pages & Hw2 & Hpages); [done|exact Hloop|].
    pose proof (optional_write_written _ _ _ _ Hindex) as Hw4.
    cbn [fs] in Hw4.
    destruct (search_index_writes _ _ _ _ _ _ Hsearch)
      as (frags & Hw5 & Hfrags & Hoff).
    pose proof (optional_write_written _ _ _ _ Hjs) as Hw6.
    pose proof Hmk as [Hmk' _]%on_fs_Ok.
    exists pages, frags, payload. split_and!.
    + rewrite Hw6, Hw5, Hw4, Hw2, (mkdir_written _ _ _ Hmk').
      by rewrite <- !app_assoc.
    + exact Hpages.
    + exact Hfrags.
    + intros Hs. by destruct (Hoff Hs).
    + exists w0, w2, w4, w5.
      split; [exact Hmk|]. split; [exact Hloop|]. split; [exact Hindex|].
      split; [exact Hsearch|exact Hjs].
Qed.

End Layout.

(** *** The build on a concrete run *)

Lemma search_index_constructs_first_witness :
  Fs.exists_ (Path "out/.cache/search") (fs toy_world) = false /\
  exists fs1,
    search_index (H := toy_pdoc all_importable) {| search := false |}
      [("pkg", "pkg")] (Path "out/.cache/search") toy_world
    = Ok ("", {| fs := fs1; calls := [CallRootRender] |}) /\
    Fs.is_dir (Path "out/.cache/search") fs1 = true.
Proof.
  split; [by_vm|].
  assert (exists fs1, Fs.mkdir (Path "out/.cache/search") (fs toy_world)
                      = Ok fs1) as [fs1 Hmk].
  { exists (match Fs.mkdir (Path "out/.cache/search") (fs toy_world) with
            | Ok f => f
            | Err _ => fs toy_world
            end).
    by_vm. }
  destruct (search_index_constructs_first (H := toy_pdoc all_importable)
              {| search := false |} [("pkg", "pkg")]
              (Path "out/.cache/search") toy_world) as [Hok _].
  - reflexivity.
  - exists fs1. exact (Hok fs1 Hmk).
Defined.

Lemma search_disabled_stores_nothing_witness :
  exists w',
    render_modules (H := toy_pdoc all_importable) {| search := false |}
      [("pkg", "pkg")] (Path "out") toy_world = Ok (tt, w') /\
    forall data, (Path "out" </> Path "search.js", data) ∉ Fs.written (fs w').
Proof.
  assert (exists w',
             render_modules (H := toy_pdoc all_importable)
               {| search := false |} [("pkg", "pkg")] (Path "out") toy_world
             = Ok (tt, w')) as [w' Hrun].
  { exists (match render_modules (H := toy_pdoc all_importable)
                    {| search := false |} [("pkg", "pkg")] (Path "out")
                    toy_world with
            | Ok (_, w0) => w0
            | Err _ => toy_world
            end).
    by_vm. }
  destruct (search_disabled_stores_nothing (H := toy_pdoc all_importable)
              {| search := false |} [("pkg", "pkg")] (Path "out")
              toy_world w')
    as (_ & _ & new & Hnew & Hno & _).
  - reflexivity.
  - exact Hrun.
  - exists w'. split; [exact Hrun|]. rewrite Hnew. exact Hno.
Defined.

Lemma build_layout_witness :
  exists w' pages frags payload,
    render_modules (H := toy_pdoc all_importable) configured
      [("pkg.sub", "pkg.sub")] (Path "out") toy_world = Ok (tt, w') /\
    Fs.written (fs w')
    = pages ++ optional_write (Path "out/index.html") "<index>"
      ++ frags ++ optional_write (Path "out/search.js") payload.
Proof.
  assert (exists w',
             render_modules (H := toy_pdoc all_importable) configured
               [("pkg.sub", "pkg.sub")] (Path "out") toy_world = Ok (tt, w'))
    as [w' Hrun].
  { exists (match render_modules (H := toy_pdoc all_importable) configured
                    [("pkg.sub", "pkg.sub")] (Path "out") toy_world with
            | Ok (_, w0) => w0
            | Err _ => toy_world
            end).
    by_vm. }
  destruct (build_layout (H := toy_pdoc all_importable) configured
              [("pkg.sub", "pkg.sub")] (Path "out") toy_world w')
    as (_ & _ & _ & _ & pages & frags & payload & Hw & _).
  - exact Hrun.
  - exists w', pages, frags, payload. split; [exact Hrun|exact Hw].
Defined.

(** C3, as stated, fails. The page of [pkg.sub] is written to
    [out/pkg/sub.html]: at the output root, outside [out/.cache], and it
    is neither [index.html] nor [search.js]. *)
Lemma pages_are_written_at_the_output_root :
  let page := mkPath false ["out"; "pkg"; "sub.html"] in
  exists w',
    render_modules (H := toy_pdoc all_importable) configured
      [("pkg.sub", "pkg.sub")] (Path "out") toy_world = Ok (tt, w') /\
    Fs.written (fs w')
    = [(page, "<html>pkg.sub");
       (Path "out/index.html", "<index>");
       (Path "out/.cache/search/pkg/sub.json", "pkg.sub");
       (Path "out/search.js", "index=pkg.sub")] /\
    under (Path "out") page /\
    ~ under (Path "out" </> Path ".cache") page /\
    page <> Path "out" </> Path "index.html" /\
    page <> Path "out" </> Path "search.js".
Proof.
  intros page.
  exists (match render_modules (H := toy_pdoc all_importable) configured
                  [("pkg.sub", "pkg.sub")] (Path "out") toy_world with
          | Ok (_, w0) => w0
          | Err _ => toy_world
          end).
  split; [by_vm|]. split; [by_vm|].
  split_and!.
  - split; [reflexivity|]. by exists ["pkg"; "sub.html"].
  - intros [_ [k Hk]]. vm_compute in Hk. discriminate Hk.
  - discriminate.
  - discriminate.
Qed.

(** * Further properties of the code *)

(** ** Entries of a cache: write, read, delete *)

Lemma mkdir_from_nodes (abs : bool) (seen todo : list string) fs0 fs1 q n :
  Fs.mkdir_from abs seen todo fs0 = Ok fs1 ->
  nodes fs0 !! q = Some n -> nodes fs1 !! q = Some n.
Proof.
  revert seen fs0. induction todo as [|c todo IH]; intros seen fs0; simpl.
  - by intros [= ->].
  - destruct (nodes fs0 !! mkPath abs (seen ++ [c])) as [[|data]|] eqn:Hc;
      [by apply IH|done|].
    intros Hmk Hq. eapply IH; [exact Hmk|]. simpl.
    rewrite lookup_insert_ne; [done|]. intros <-. congruence.
Qed.

Lemma mkdir_lookup (p : path) fs0 fs1 q n :
  Fs.mkdir p fs0 = Ok fs1 ->
  Fs.lookup q fs0 = Some n -> Fs.lookup q fs1 = Some n.
Proof.
  unfold Fs.mkdir, Fs.lookup. intros Hmk.
  destruct (parts q); [done|]. by eapply mkdir_from_nodes.
Qed.

Lemma write_text_lookup_ne (p q : path) (data : string) fs0 fs1 :
  Fs.write_text p data fs0 = Ok fs1 ->
  p <> q -> Fs.lookup q fs1 = Fs.lookup q fs0.
Proof.
  unfold Fs.write_text. intros Hw Hne.
  assert (nodes fs1 = <[p := File data]> (nodes fs0)) as Hn.
  { destruct (Fs.lookup p fs0) as [[|d]|];
      destruct (Fs.lookup (parent p) fs0) as [[|d']|]; try done;
      by injection Hw as <-. }
  unfold Fs.lookup. destruct (parts q); [done|].
  by rewrite Hn, lookup_insert_ne.
Qed.

Lemma unlink_lookup (p : path) fs0 fs1 :
  Fs.unlink p fs0 = Ok fs1 -> Fs.lookup p fs1 = None.
Proof.
  unfold Fs.unlink, Fs.lookup.
  destruct (parts p) as [|c ps]; [done|].
  destruct (nodes fs0 !! p) as [[|d]|]; try done.
  intros [= <-]. simpl. apply lookup_delete_eq.
Qed.

Section CacheEntries.
Context {K V : Type}.
Implicit Types (self : Cache K V) (k : K) (w : world).

(** X1. After [cache[k] = v] the key is in the cache, and [get] returns
    [v] without a call of [compute], when [load] is a left inverse of
    [save]. *)
Theorem setitem_then_get self k v w w1 :
  load_inverts_save self ->
  Cache.setitem self k v w = Ok (tt, w1) ->
  Cache.contains self k w1 = Ok (true, w1) /\
  exists fs2,
    Cache.get self k w1 = Ok (v, {| fs := fs2; calls := calls w |}).
Proof.
  intros Hinv. unfold Cache.setitem.
  intros (u & w0 & [Hmk Hc0]%on_fs_Ok & [Hs Hc1]%on_fs_Ok)%bind_Ok.
  destruct (Hinv _ _ _ _ Hs) as [Hex [fs2 Hload]].
  split.
  - unfold Cache.contains. by rewrite Hex.
  - exists fs2. unfold Cache.get, Cache.getitem. rewrite Hex. simpl.
    unfold from_fs. rewrite Hload. by rewrite Hc1, Hc0.
Qed.

(** X2. After [del cache[k]] the key is not in the cache, reading it
    raises [KeyError], and deleting it again changes nothing. *)
Theorem delitem_idempotent self k w w1 :
  Cache.delitem self k w = Ok (tt, w1) ->
  Cache.contains self k w1 = Ok (false, w1) /\
  Cache.getitem self k w1 = Err KeyError /\
  Cache.delitem self k w1 = Ok (tt, w1).
Proof.
  unfold Cache.delitem. intros Hdel.
  assert (Fs.exists_ (cache_path self </> key self k) (fs w1) = false)
    as Hgone.
  { destruct (Fs.exists_ _ (fs w)) eqn:Hex.
    - apply on_fs_Ok in Hdel as [Hu _]. apply unlink_lookup in Hu.
      unfold Fs.exists_. by rewrite Hu.
    - by injection Hdel as <-. }
  unfold Cache.contains, Cache.getitem. by rewrite Hgone.
Qed.

End CacheEntries.

Section ConcreteCaches.
Context `{Pdoc}.
Implicit Types (modules : dict doc_Module) (w : world).

(** X3. An entry that exists is never recomputed, whatever it holds: for
    both caches [get] on a key whose file exists is the [load] of that
    file and nothing more, so it fails exactly when the load fails, with
    the same error, and is never taken for a miss. When it returns, the
    value is the one the file holds (its text for a page, the list its
    text decodes to for a fragment), the files on the disk are as before,
    and there was no call of [compute] and no write. *)
Theorem existing_entry_is_not_recomputed (root : path) modules w :
  (forall m,
      Fs.exists_ (root </> CacheHTML_key m) (fs w) = true ->
      Cache.get (CacheHTML root modules) m w
      = from_fs (load (CacheHTML root modules) (root </> CacheHTML_key m)) w /\
      forall value w',
        Cache.get (CacheHTML root modules) m w = Ok (value, w') ->
        Fs.lookup (root </> CacheHTML_key m) (fs w) = Some (File value) /\
        nodes (fs w') = nodes (fs w) /\
        calls w' = calls w /\
        Fs.written (fs w') = Fs.written (fs w)) /\
  (forall k,
      Fs.exists_ (root </> CacheIndex_key k) (fs w) = true ->
      Cache.get (CacheIndex root modules) k w
      = from_fs (load (CacheIndex root modules) (root </> CacheIndex_key k)) w
      /\
      forall value w',
        Cache.get (CacheIndex root modules) k w = Ok (value, w') ->
        (exists text,
            Fs.lookup (root </> CacheIndex_key k) (fs w) = Some (File text) /\
            json_load text = Some value) /\
        nodes (fs w') = nodes (fs w) /\
        calls w' = calls w /\
        Fs.written (fs w') = Fs.written (fs w)).
Proof.
  split.
  - intros m Hex.
    assert (Cache.get (CacheHTML root modules) m w
            = from_fs (load (CacheHTML root modules)
                         (root </> CacheHTML_key m)) w) as Hget.
    { unfold Cache.get, Cache.getitem. simpl. rewrite Hex. simpl.
      unfold from_fs, Fs.read_text.
      by destruct (Fs.lookup _ (fs w)) as [[|data]|]. }
    split; [exact Hget|]. intros value w'. rewrite Hget.
    unfold from_fs. cbn [load CacheHTML]. unfold Fs.read_text.
    destruct (Fs.lookup _ (fs w)) as [[|data]|]; try done.
    intros [= <- <-]. simpl. split_and!; try done.
    unfold Fs.written. simpl. rewrite omap_app. simpl. by rewrite app_nil_r.
  - intros k Hex.
    assert (Cache.get (CacheIndex root modules) k w
            = from_fs (load (CacheIndex root modules)
                         (root </> CacheIndex_key k)) w) as Hget.
    { unfold Cache.get, Cache.getitem. simpl. rewrite Hex. simpl.
      unfold from_fs, result_bind, Fs.read_text.
      destruct (Fs.lookup _ (fs w)) as [[|data]|]; try done.
      cbn [fst snd]. by destruct (json_load data). }
    split; [exact Hget|]. intros value w'. rewrite Hget.
    unfold from_fs. cbn [load CacheIndex]. unfold result_bind, Fs.read_text.
    destruct (Fs.lookup _ (fs w)) as [[|data]|]; try done.
    cbn [fst snd]. destruct (json_load data) as [v|] eqn:Hjson; [|done].
    intros [= <- <-]. simpl. split_and!; try done.
    + by exists data.
    + unfold Fs.written. simpl. rewrite omap_app. simpl.
      by rewrite app_nil_r.
Qed.


End ConcreteCaches.

Lemma setitem_then_get_witness :
  let cache := CacheHTML (H := toy_pdoc all_importable) (Path "out") [] in
  exists w1 fs2,
    Cache.setitem cache "pkg.sub" "text" toy_world = Ok (tt, w1) /\
    Cache.get cache "pkg.sub" w1 = Ok ("text", {| fs := fs2; calls := [] |}).
Proof.
  intros cache.
  assert (exists w1, Cache.setitem cache "pkg.sub" "text" toy_world
                     = Ok (tt, w1)) as [w1 Hset].
  { exists (match Cache.setitem cache "pkg.sub" "text" toy_world with
            | Ok (_, w0) => w0
            | Err _ => toy_world
            end).
    by_vm. }
  destruct (setitem_then_get cache "pkg.sub" "text" toy_world w1)
    as [_ [fs2 Hget]].
  - apply CacheHTML_load_inverts_save.
  - exact Hset.
  - exists w1, fs2. split; [exact Hset|exact Hget].
Defined.

Lemma existing_entry_is_not_recomputed_witness :
  let cache := CacheHTML (H := toy_pdoc all_importable) (Path "out") [] in
  exists w1 w2,
    Cache.setitem cache "pkg.sub" "text" toy_world = Ok (tt, w1) /\
    Cache.get cache "pkg.sub" w1 = Ok ("text", w2) /\
    calls w2 = calls w1 /\
    Fs.written (fs w2) = Fs.written (fs w1).
Proof.
  intros cache.
  pose (w1 := match Cache.setitem cache "pkg.sub" "text" toy_world with
              | Ok (_, w0) => w0
              | Err _ => toy_world
              end).
  pose (w2 := match Cache.get cache "pkg.sub" w1 with
              | Ok (_, w0) => w0
              | Err _ => toy_world
              end).
  assert (Cache.setitem cache "pkg.sub" "text" toy_world = Ok (tt, w1))
    as Hset by by_vm.
  assert (Cache.get cache "pkg.sub" w1 = Ok ("text", w2)) as Hget by by_vm.
  destruct (existing_entry_is_not_recomputed
              (H := toy_pdoc all_importable) (Path "out") [] w1)
    as [Hpage _].
  destruct (Hpage "pkg.sub") as [_ Hvalue]; [by_vm|].
  destruct (Hvalue "text" w2 Hget) as (_ & _ & Hcalls & Hwritten).
  exists w1, w2. split; [exact Hset|]. split; [exact Hget|].
  split; [exact Hcalls|exact Hwritten].
Defined.

Lemma delitem_idempotent_witness :
  let cache := CacheHTML (H := toy_pdoc all_importable) (Path "out") [] in
  exists w1 w2,
    Cache.setitem cache "pkg.sub" "text" toy_world = Ok (tt, w1) /\
    Cache.contains cache "pkg.sub" w1 = Ok (true, w1) /\
    Cache.delitem cache "pkg.sub" w1 = Ok (tt, w2) /\
    Cache.getitem cache "pkg.sub" w2 = Err KeyError /\
    Cache.delitem cache "pkg.sub" w2 = Ok (tt, w2).
Proof.
  intros cache.
  assert (exists w1 w2,
             Cache.setitem cache "pkg.sub" "text" toy_world = Ok (tt, w1) /\
             Cache.contains cache "pkg.sub" w1 = Ok (true, w1) /\
             Cache.delitem cache "pkg.sub" w1 = Ok (tt, w2))
    as (w1 & w2 & Hset & Hin & Hdel).
  { exists (match Cache.setitem cache "pkg.sub" "text" toy_world with
            | Ok (_, w0) => w0
            | Err _ => toy_world
            end).
    exists (match (let* _ := Cache.setitem cache "pkg.sub" "text" in
                   Cache.delitem cache "pkg.sub") toy_world with
            | Ok (_, w0) => w0
            | Err _ => toy_world
            end).
    split_and!; by_vm. }
  destruct (delitem_idempotent cache "pkg.sub" w1 w2 Hdel)
    as (_ & Hget & Hagain).
  exists w1, w2.
  split; [exact Hset|]. split; [exact Hin|]. split; [exact Hdel|].
  split; [exact Hget|exact Hagain].
Defined.


(** ** Names and the paths of their entries *)

Lemma join_split (c : ascii) (s : string) :
  Str.join (String c "") (Str.split c s) = s.
Proof.
  unfold Str.join. induction s as [|a s IH]; [done|].
  simpl. destruct (Ascii.eqb_spec a c) as [->|Hac].
  - destruct (Str.split c s) as [|w ws] eqn:Hs;
      [by destruct (split_nonempty c s)|].
    change (String.concat (String c "") ("" :: w :: ws))
      with (String c (String.concat (String c "") (w :: ws))).
    by rewrite IH.
  - destruct (Str.split c s) as [|w ws] eqn:Hs;
      [by destruct (split_nonempty c s)|].
    destruct ws as [|w' ws]; simpl in *; by rewrite <- IH.
Qed.

Lemma list_ascii_app (s t : string) :
  list_ascii_of_string (s ++ t)
  = list_ascii_of_string s ++ list_ascii_of_string t.
Proof. induction s as [|a s IH]; simpl; [done|]. by rewrite IH. Qed.

Lemma string_app_inv_tail (s1 s2 t : string) :
  (s1 ++ t = s2 ++ t)%string -> s1 = s2.
Proof.
  intros Heq. apply (f_equal list_ascii_of_string) in Heq.
  rewrite !list_ascii_app in Heq. apply app_inv_tail in Heq.
  rewrite <- (string_of_list_ascii_of_string s1),
          <- (string_of_list_ascii_of_string s2).
  by rewrite Heq.
Qed.

Lemma filter_nothing_dropped (c : ascii) (name : string) (l : list string) :
  c = "."%char ->
  l ⊆ Str.split c name -> "" ∉ Str.split c name ->
  filter (fun x => ~ dropped_part x) l = l.
Proof.
  intros -> Hsub Hne. induction l as [|x l IH]; [done|].
  rewrite filter_cons_True.
  - f_equal. apply IH. set_solver.
  - intros [-> | ->].
    + apply Hne, Hsub. left.
    + assert (Str.count "." "." = 0) as Hc; [|done].
      apply (split_parts_no_sep "." name), Hsub. left.
Qed.

(** The path of an entry, for a well-formed name: the parts of the name,
    the last with the extension. *)
Lemma entry_path_parts (name ext : string) init final :
  well_formed_name name ->
  Str.count "/" ext = 0 -> ext <> "" -> ext <> "." ->
  Str.split "." name = init ++ [final] ->
  parts (Path (Str.replace "." "/" name ++ ext))
  = init ++ [(final ++ ext)%string].
Proof.
  intros [Hslash Hparts] Hsep He1 He2 Hsplit.
  rewrite (Path_with_extension _ _ init final); [|done..|].
  - f_equal. apply (filter_nothing_dropped "." name); [done| |done].
    rewrite Hsplit. set_solver.
  - by rewrite split_replace.
Qed.

Lemma entry_path_inj (n1 n2 ext : string) :
  well_formed_name n1 -> well_formed_name n2 ->
  Str.count "/" ext = 0 -> ext <> "" -> ext <> "." ->
  Path (Str.replace "." "/" n1 ++ ext) = Path (Str.replace "." "/" n2 ++ ext) ->
  n1 = n2.
Proof.
  intros Hw1 Hw2 Hsep He1 He2 Heq.
  destruct (split_snoc "." n1) as (i1 & f1 & Hs1).
  destruct (split_snoc "." n2) as (i2 & f2 & Hs2).
  apply (f_equal parts) in Heq.
  rewrite (entry_path_parts n1 ext i1 f1), (entry_path_parts n2 ext i2 f2)
    in Heq by done.
  apply app_inj_tail in Heq as [-> Hf%string_app_inv_tail]. subst f2.
  rewrite <- (join_split "." n1), <- (join_split "." n2). by rewrite Hs1, Hs2.
Qed.

Section EntryPaths.
Context `{Pdoc}.

(** X5. The path of a fragment is made the way the path of a page is,
    with the name of the key in place of the name of the module and
    [.json] for extension: its components are the dotted parts of the
    name, the last one with the extension. *)
Theorem CacheIndex_key_mirrors_name (name : string) (m : doc_Module)
    init final :
  Str.count "/" name = 0 ->
  Str.split "." name = init ++ [final] ->
  parts (CacheIndex_key (name, m))
  = filter (fun c => c <> "") init ++ [(final ++ ".json")%string] /\
  absolute (CacheIndex_key (name, m)) = String.prefix "." name.
Proof.
  intros Hslash Hsplit. unfold CacheIndex_key. cbn [fst]. split.
  - rewrite (Path_with_extension _ _ init final); [|done..|].
    + f_equal. apply filter_agree. intros x Hx. unfold dropped_part.
      assert (Str.count "." x = 0) as Hdot.
      { apply (split_parts_no_sep "." name).
        rewrite Hsplit. apply elem_of_app. by left. }
      split; [tauto|]. intros Hne [?| ->]; done.
    + by rewrite split_replace.
  - unfold Path. cbn [absolute]. by apply prefix_slash_replace.
Qed.

(** X6. Two well-formed names never share a file: modules with different
    names have different pages, and keys with different names different
    fragments. *)
Theorem entry_paths_are_injective (m1 m2 : doc_Module) (n1 n2 : string) :
  well_formed_name (fullname m1) -> well_formed_name (fullname m2) ->
  well_formed_name n1 -> well_formed_name n2 ->
  (CacheHTML_key m1 = CacheHTML_key m2 -> fullname m1 = fullname m2) /\
  (CacheIndex_key (n1, m1) = CacheIndex_key (n2, m2) -> n1 = n2).
Proof.
  intros Hm1 Hm2 Hn1 Hn2. split.
  - by apply entry_path_inj.
  - by apply entry_path_inj.
Qed.

End EntryPaths.

Lemma path_eta (p : path) (a : bool) (ps : list string) :
  absolute p = a -> parts p = ps -> p = mkPath a ps.
Proof. destruct p. simpl. by intros -> ->. Qed.

Lemma CacheIndex_key_mirrors_name_witness :
  CacheIndex_key (H := toy_pdoc all_importable) ("pkg.sub", "pkg.sub")
  = mkPath false ["pkg"; "sub.json"].
Proof.
  destruct (CacheIndex_key_mirrors_name (H := toy_pdoc all_importable)
              "pkg.sub" "pkg.sub" ["pkg"] "sub") as [Hparts Habs].
  - reflexivity.
  - reflexivity.
  - apply path_eta; [exact Habs|exact Hparts].
Defined.

Lemma entry_paths_are_injective_witness :
  well_formed_name "pkg.a" /\ well_formed_name "pkg.b" /\
  (CacheHTML_key (H := toy_pdoc all_importable) "pkg.a"
   = CacheHTML_key (H := toy_pdoc all_importable) "pkg.b" ->
   "pkg.a" = "pkg.b").
Proof.
  assert (forall s, s = "pkg.a" \/ s = "pkg.b" -> well_formed_name s) as Hwf.
  { intros s [->| ->]; (split; [reflexivity|]);
      apply (bool_decide_unpack _); vm_compute; exact I. }
  split_and!; [apply Hwf; auto..|].
  apply (entry_paths_are_injective (H := toy_pdoc all_importable)
           "pkg.a" "pkg.b" "pkg.a" "pkg.b"); apply Hwf; auto.
Defined.

(** ** What the loader returns *)

Lemma dict_set_elem {M} (k k' : string) (v v' : M) (d : dict M) :
  (k', v') ∈ dict_set k v d -> (k', v') = (k, v) \/ (k', v') ∈ d.
Proof.
  induction d as [|[k0 v0] d IH]; simpl.
  - intros ->%list_elem_of_singleton. by left.
  - destruct (String.eqb k k0).
    + intros [->|Hin]%elem_of_cons; [by left|]. right. by right.
    + intros [->|Hin]%elem_of_cons; [right; left|].
      destruct (IH Hin) as [?|?]; [by left|]. right. by right.
Qed.

Lemma dict_set_keys_grow {M} (k n : string) (v : M) (d : dict M) :
  n ∈ d.*1 -> n ∈ (dict_set k v d).*1.
Proof.
  intros Hn. destruct (dict_set_keys k v d) as [->|[_ ->]]; [done|].
  apply elem_of_app. by left.
Qed.

Lemma dict_set_key_in {M} (k : string) (v : M) (d : dict M) :
  k ∈ (dict_set k v d).*1.
Proof.
  destruct (decide (k ∈ d.*1)) as [Hin|Hout].
  - by rewrite dict_set_keys_present.
  - rewrite dict_set_fresh, fmap_app by done. apply elem_of_app. right. left.
Qed.

Section LoaderResult.
Context `{Pdoc}.
Implicit Types (st : load_state) (name : string).

(** What one iteration does to the two locals. *)
Lemma load_step_trace name st st' :
  load_step name st = Ok st' ->
  (forall x, x ∈ invalid st -> x ∈ invalid st') /\
  (forall n, n ∈ (loaded st).*1 -> n ∈ (loaded st').*1) /\
  (forall n m, (n, m) ∈ loaded st' ->
               (n, m) ∈ loaded st \/ (n = name /\ from_name n = Imported m)) /\
  ((exists m, from_name name = Imported m) -> name ∉ invalid st ->
   name ∈ (loaded st').*1) /\
  (forall x, x ∈ invalid st' ->
             x ∈ invalid st \/
             exists msg, from_name name = Raises (RuntimeError msg) /\
                         Str.contains "Error importing" msg = true /\
                         x ∈ invalidated name).
Proof.
  unfold load_step.
  destruct (decide (name ∈ invalid st)) as [Hin|Hout].
  { intros [= <-]. split_and!; try done; auto. }
  destruct (from_name name) as [m|e] eqn:Hm.
  - intros [= <-]. simpl. split_and!; try done.
    + intros n. apply dict_set_keys_grow.
    + intros n m' [[= -> ->]|Hold]%dict_set_elem; auto.
    + intros _ _. apply dict_set_key_in.
    + auto.
  - destruct e as [| | | | | |msg|]; try done.
    destruct (Str.contains "Error importing" msg) eqn:Hmsg;
      intros [= <-]; simpl; (split_and!; [..|]); try done; auto.
    + intros x Hx. apply elem_of_union. by left.
    + intros [m Hi]. congruence.
    + intros x [Hx|Hx]%elem_of_union; [by left|]. right.
      exists msg. split_and!; try done. by apply elem_of_list_to_set in Hx.
    + intros [m Hi]. congruence.
Qed.

Lemma load_loop_trace (names : list string) st st' :
  load_loop names st = Ok st' ->
  (forall x, x ∈ invalid st -> x ∈ invalid st') /\
  (forall n, n ∈ (loaded st).*1 -> n ∈ (loaded st').*1) /\
  (forall n m, (n, m) ∈ loaded st' ->
               (n, m) ∈ loaded st \/
               (n ∈ names /\ from_name n = Imported m)) /\
  (forall n, n ∈ names -> (exists m, from_name n = Imported m) ->
             n ∉ invalid st' -> n ∈ (loaded st').*1) /\
  (forall x, x ∈ invalid st' ->
             x ∈ invalid st \/
             exists name msg,
               name ∈ names /\ from_name name = Raises (RuntimeError msg) /\
               Str.contains "Error importing" msg = true /\
               x ∈ invalidated name).
Proof.
  revert st. induction names as [|a names IH]; intros st; simpl.
  - intros [= <-]. split_and!; try done; auto.
    intros n Hn. by apply elem_of_nil in Hn.
  - destruct (load_step a st) as [s1|e] eqn:Hstep; simpl; [|done].
    intros Hloop.
    destruct (load_step_trace a st s1 Hstep) as (Hi1 & Hl1 & Hv1 & Hc1 & Hp1).
    destruct (IH s1 Hloop) as (Hi2 & Hl2 & Hv2 & Hc2 & Hp2).
    split_and!.
    + auto.
    + auto.
    + intros n m Hin. destruct (Hv2 n m Hin) as [Hs1|[Hn Hm]].
      * destruct (Hv1 n m Hs1) as [?|[-> Hm]]; [by left|].
        right. split; [left|done].
      * right. split; [by right|done].
    + intros n [->|Hn]%elem_of_cons Himp Hout.
      * apply Hl2, Hc1; [done|]. intros Hin. by apply Hout, Hi2, Hi1.
      * by apply Hc2.
    + intros x Hx. destruct (Hp2 x Hx) as [Hs1|(name & msg & Hn & Hrest)].
      * destruct (Hp1 x Hs1) as [?|(msg & Hrest)]; [by left|].
        right. exists a, msg. split; [left|done].
      * right. exists name, msg. split; [by right|done].
Qed.

Lemma load_loop_failure (names : list string) st e :
  load_loop names st = Err e ->
  exists name,
    name ∈ names /\ from_name name = Raises e /\
    forall msg, e <> RuntimeError msg.
Proof.
  revert st. induction names as [|a names IH]; intros st; simpl; [done|].
  destruct (load_step a st) as [s1|e1] eqn:Hstep; simpl.
  - intros (name & Hn & Hrest)%IH. exists name. split; [by right|done].
  - intros [= ->]. exists a. split; [left|].
    unfold load_step in Hstep.
    destruct (decide (a ∈ invalid st)); [done|].
    destruct (from_name a) as [m|e1]; [done|].
    destruct e1; try destruct (Str.contains _ _); try done;
      by injection Hstep as <-.
Qed.

Lemma load_loop_failure_at (names : list string) st0 e :
  load_loop names st0 = Err e ->
  exists before name after st,
    names = before ++ name :: after /\
    load_loop before st0 = Ok st /\
    (name ∉ invalid st) /\
    from_name name = Raises e /\
    forall msg, e <> RuntimeError msg.
Proof.
  revert st0. induction names as [|a names IH]; intros st0; simpl; [done|].
  destruct (load_step a st0) as [s1|e1] eqn:Hstep; simpl.
  - intros (before & name & after & st & -> & Hb & Hrest)%IH.
    exists (a :: before), name, after, st. split; [done|].
    split; [|done]. simpl. by rewrite Hstep.
  - intros [= ->]. exists [], a, names, st0. split; [done|].
    split; [done|]. unfold load_step in Hstep.
    destruct (decide (a ∈ invalid st0)) as [|Hout]; [done|].
    split; [done|].
    destruct (from_name a) as [m|e1]; [done|].
    destruct e1; try destruct (Str.contains _ _); try done;
      by injection Hstep as <-.
Qed.

Lemma finalize_elem st n m :
  load_inv st -> (n, m) ∈ finalize st -> (n, m) ∈ loaded st.
Proof.
  intros [Hnd _]. rewrite finalize_filter by done.
  intros [_ Hin]%list_elem_of_filter. by rewrite sorted_perm in Hin.
Qed.

(** X7. The names of the returned mapping are exactly the candidates of
    the walk that were imported and are not in the invalid set at the end
    of the loop. *)
Theorem load_modules_keys (modules : list string) st name :
  load_loop (walk_specs modules) load_start = Ok st ->
  name ∈ (finalize st).*1 <->
  name ∈ walk_specs modules /\
  (exists m, from_name name = Imported m) /\
  name ∉ invalid st.
Proof.
  intros Hrun.
  assert (load_inv st) as Hinv
    by (eapply load_loop_inv; [apply load_inv_start|exact Hrun]).
  destruct (load_loop_trace _ _ _ Hrun) as (_ & _ & Hv & Hc & _).
  rewrite finalize_keys by done. split.
  - intros [Hin Hout]. apply list_elem_of_fmap in Hin as ([n m] & -> & Hin).
    destruct (Hv n m Hin) as [Hnil|[Hn Hm]]; [by apply elem_of_nil in Hnil|].
    simpl. eauto.
  - intros (Hn & Himp & Hout). split; [|done]. by apply Hc.
Qed.

(** X8. The returned mapping has no name twice, and maps every name to
    the module its import gave; every name is a candidate of the walk. *)
Theorem load_modules_values (modules : list string)
    (result : dict doc_Module) :
  load_modules modules = Ok result ->
  NoDup result.*1 /\
  forall n m, (n, m) ∈ result ->
              n ∈ walk_specs modules /\ from_name n = Imported m.
Proof.
  unfold load_modules.
  destruct (load_loop (walk_specs modules) load_start) as [st|] eqn:Hrun;
    [|done].
  intros [= <-].
  assert (load_inv st) as Hinv
    by (eapply load_loop_inv; [apply load_inv_start|exact Hrun]).
  split; [by apply finalize_NoDup|].
  intros n m Hin%finalize_elem; [|done].
  destruct (load_loop_trace _ _ _ Hrun) as (_ & _ & Hv & _).
  destruct (Hv n m Hin) as [Hnil|?]; [by apply elem_of_nil in Hnil|done].
Qed.

(** X9. Given the candidates the walk yielded, the loop stops with an
    exception only at a candidate that is not in the invalid set at that
    point and whose import raised that exception, which is not a runtime
    error; the candidates before it were all processed. *)
Theorem loop_stops_at_a_failed_import (names : list string) e :
  load_loop names load_start = Err e ->
  exists before name after st,
    names = before ++ name :: after /\
    load_loop before load_start = Ok st /\
    (name ∉ invalid st) /\
    from_name name = Raises e /\
    forall msg, e <> RuntimeError msg.
Proof.
  intros (before & name & after & st & Hrest)%load_loop_failure_at.
  by exists before, name, after, st.
Qed.

(** X10. Given the candidates the walk yielded, when the import of every
    one of them succeeds the loop runs to its end, the invalid set stays
    empty, and the names of the returned mapping are exactly the
    candidates. *)
Theorem all_imported_all_kept (names : list string) :
  (forall name, name ∈ names -> exists m, from_name name = Imported m) ->
  exists st,
    load_loop names load_start = Ok st /\
    invalid st = ∅ /\
    forall name, name ∈ (finalize st).*1 <-> name ∈ names.
Proof.
  intros Hall.
  destruct (load_loop names load_start) as [st|e] eqn:Hrun.
  - exists st. split; [done|].
    assert (load_inv st) as Hinv
      by (eapply load_loop_inv; [apply load_inv_start|exact Hrun]).
    destruct (load_loop_trace _ _ _ Hrun) as (_ & _ & Hv & Hc & Hp).
    assert (forall x, x ∉ invalid st) as Hempty.
    { intros x Hx.
      destruct (Hp x Hx) as [Hnil|(n & msg & Hn & Hr & _)];
        [by apply not_elem_of_empty in Hnil|].
      destruct (Hall n Hn) as [m Hm]. congruence. }
    split.
    + apply leibniz_equiv. intros x. split; [|by intros ?%not_elem_of_empty].
      intros Hx. by destruct (Hempty x).
    + intros name. rewrite finalize_keys by done. split.
      * intros [Hin _]. apply list_elem_of_fmap in Hin as ([n m] & -> & Hin).
        destruct (Hv n m Hin) as [Hnil|[Hn _]]; [|done].
        by apply elem_of_nil in Hnil.
      * intros Hn. split; [|done]. by apply Hc; [|apply Hall|].
  - apply load_loop_failure in Hrun as (name & Hn & Hr & _).
    destruct (Hall name Hn) as [m Hm]. congruence.
Qed.

(** X11. Every name of the invalid set was put there by a candidate of
    the walk with a dot in its name, whose import raised a runtime error
    with the message of an import error. *)
Theorem invalid_names_come_from_import_errors (modules : list string) st x :
  load_loop (walk_specs modules) load_start = Ok st ->
  x ∈ invalid st ->
  exists name msg,
    name ∈ walk_specs modules /\
    from_name name = Raises (RuntimeError msg) /\
    Str.contains "Error importing" msg = true /\
    x ∈ invalidated name /\
    ~ top_level name.
Proof.
  intros Hrun Hx.
  destruct (load_loop_trace _ _ _ Hrun) as (_ & _ & _ & _ & Hp).
  destruct (Hp x Hx) as [Hnil|(name & msg & Hn & Hr & Hmsg & Hin)];
    [by apply not_elem_of_empty in Hnil|].
  exists name, msg. split_and!; try done.
  intros Htop. rewrite invalidated_top_level in Hin by done.
  by apply elem_of_nil in Hin.
Qed.

(** X12. The pruning reaches back: when an attempted candidate fails with
    an import error, no name it invalidates is in the returned mapping,
    also when that name was loaded before. *)
Theorem import_error_prunes_loaded_names (modules before after : list string)
    name msg st_mid st x :
  walk_specs modules = before ++ name :: after ->
  load_loop before load_start = Ok st_mid ->
  name ∉ invalid st_mid ->
  from_name name = Raises (RuntimeError msg) ->
  Str.contains "Error importing" msg = true ->
  load_loop (walk_specs modules) load_start = Ok st ->
  x ∈ invalidated name ->
  x ∈ invalid st /\ x ∉ (finalize st).*1.
Proof.
  intros Hwalk Hbefore Hout Hraise Hmsg Hrun Hx.
  assert (load_inv st) as Hinv
    by (eapply load_loop_inv; [apply load_inv_start|exact Hrun]).
  assert (x ∈ invalid st) as Hin.
  { rewrite Hwalk, load_loop_app, Hbefore in Hrun. simpl in Hrun.
    rewrite (load_step_import_error name st_mid msg) in Hrun by done.
    simpl in Hrun. apply load_loop_trace in Hrun as (Hmono & _).
    apply Hmono. simpl. apply elem_of_union. right.
    by apply elem_of_list_to_set. }
  split; [done|]. rewrite finalize_keys by done. tauto.
Qed.

End LoaderResult.

Lemma load_modules_keys_witness :
  let st := toy_state (import_error_at "a.b")
              [("a", "a"); ("c", "c")] (∅ ∪ list_to_set ["a"])
              ["a"; "a.b"; "c"] in
  "c" ∈ (finalize st).*1 /\ ("a" ∉ (finalize st).*1).
Proof.
  intros st.
  pose proof (load_modules_keys (H := toy_pdoc (import_error_at "a.b"))
                ["a"; "a.b"; "c"] st) as Hkeys.
  split.
  - apply Hkeys; [vm_compute; reflexivity|].
    split_and!; [|by exists "c"|];
      apply (bool_decide_unpack _); vm_compute; exact I.
  - intros Ha. apply Hkeys in Ha as (_ & _ & Hout); [|vm_compute; reflexivity].
    apply Hout. apply (bool_decide_unpack _). vm_compute. exact I.
Defined.

Lemma load_modules_values_witness :
  load_modules (H := toy_pdoc (import_error_at "a.b")) ["a.x"; "a.b"; "c"]
  = Ok [("c", "c"); ("a.x", "a.x")] /\
  from_name (Pdoc := toy_pdoc (import_error_at "a.b")) "a.x" = Imported "a.x".
Proof.
  destruct (load_modules_values (H := toy_pdoc (import_error_at "a.b"))
              ["a.x"; "a.b"; "c"] [("c", "c"); ("a.x", "a.x")])
    as [_ Hvalues].
  - vm_compute. reflexivity.
  - split; [vm_compute; reflexivity|]. apply Hvalues. right. left.
Defined.

Lemma loop_stops_at_a_failed_import_witness :
  let failing := fun name : string =>
    if String.eqb name "x" then Some (OtherException "interrupt") else None in
  exists before name after st,
    ["a"; "x"; "b"] = before ++ name :: after /\
    load_loop (H := toy_pdoc failing) before load_start = Ok st /\
    from_name (Pdoc := toy_pdoc failing) name
    = Raises (OtherException "interrupt").
Proof.
  intros failing.
  destruct (loop_stops_at_a_failed_import (H := toy_pdoc failing)
              ["a"; "x"; "b"] (OtherException "interrupt"))
    as (before & name & after & st & Hsplit & Hb & _ & Hr & _).
  - vm_compute. reflexivity.
  - by exists before, name, after, st.
Defined.

Lemma all_imported_all_kept_witness :
  exists st,
    load_loop (H := toy_pdoc all_importable) ["b"; "a"; "b"] load_start
    = Ok st /\
    invalid st = ∅ /\
    forall name, name ∈ (finalize st).*1 <-> name ∈ ["b"; "a"; "b"].
Proof.
  apply (all_imported_all_kept (H := toy_pdoc all_importable)
           ["b"; "a"; "b"]).
  intros name _. by exists name.
Defined.

Lemma invalid_names_come_from_import_errors_witness :
  exists name msg,
    name ∈ ["a.b"] /\
    from_name (Pdoc := toy_pdoc (import_error_at "a.b")) name
    = Raises (RuntimeError msg) /\
    "a" ∈ invalidated name.
Proof.
  destruct (invalid_names_come_from_import_errors
              (H := toy_pdoc (import_error_at "a.b")) ["a.b"]
              (toy_state (import_error_at "a.b")
                 [] (∅ ∪ list_to_set ["a"]) ["a.b"]) "a")
    as (name & msg & Hn & Hr & _ & Hx & _).
  - vm_compute. reflexivity.
  - apply (bool_decide_unpack _). vm_compute. exact I.
  - by exists name, msg.
Defined.

Lemma import_error_prunes_loaded_names_witness :
  let st := toy_state (import_error_at "a.b")
              [("a", "a")] (∅ ∪ list_to_set ["a"]) ["a"; "a.b"] in
  "a" ∈ (loaded st).*1 /\ "a" ∈ invalid st /\ ("a" ∉ (finalize st).*1).
Proof.
  intros st. split; [left|].
  apply (import_error_prunes_loaded_names
           (H := toy_pdoc (import_error_at "a.b"))
           ["a"; "a.b"] ["a"] [] "a.b" "Error importing a.b"
           (toy_state (import_error_at "a.b") [("a", "a")] ∅ ["a"])).
  - reflexivity.
  - vm_compute. reflexivity.
  - apply (bool_decide_unpack _). vm_compute. exact I.
  - reflexivity.
  - reflexivity.
  - vm_compute. reflexivity.
  - apply (bool_decide_unpack _). vm_compute. exact I.
Defined.

(** ** What a build computes *)

Lemma fs_extends_refl (fs0 : filesystem) : fs_extends fs0 fs0.
Proof. by intros q. Qed.

Lemma fs_extends_trans (fs0 fs1 fs2 : filesystem) :
  fs_extends fs0 fs1 -> fs_extends fs1 fs2 -> fs_extends fs0 fs2.
Proof. intros H01 H12 q Hq. by apply H12, H01. Qed.

Lemma fs_extends_missing (fs0 fs1 : filesystem) (q : path) :
  fs_extends fs0 fs1 ->
  Fs.exists_ q fs1 = false -> Fs.exists_ q fs0 = false.
Proof.
  intros Hext Hq. destruct (Fs.exists_ q fs0) eqn:Hq0; [|done].
  apply Hext in Hq0. congruence.
Qed.

Lemma mkdir_extends (p : path) fs0 fs1 :
  Fs.mkdir p fs0 = Ok fs1 -> fs_extends fs0 fs1.
Proof.
  intros Hmk q. unfold Fs.exists_.
  destruct (Fs.lookup q fs0) as [n|] eqn:Hq; [|done].
  by rewrite (mkdir_lookup p fs0 fs1 q n).
Qed.

Lemma write_text_extends (p : path) (data : string) fs0 fs1 :
  Fs.write_text p data fs0 = Ok fs1 ->
  fs_extends fs0 fs1 /\ Fs.exists_ p fs1 = true.
Proof.
  intros Hw. split.
  - intros q. destruct (decide (p = q)) as [<-|Hne].
    + intros _. unfold Fs.exists_. by rewrite (write_text_lookup p data fs0).
    + unfold Fs.exists_. by rewrite (write_text_lookup_ne p q data fs0 fs1).
  - unfold Fs.exists_. by rewrite (write_text_lookup p data fs0).
Qed.

Lemma read_text_extends (p : path) fs0 fs1 data :
  Fs.read_text p fs0 = Ok (data, fs1) -> fs_extends fs0 fs1.
Proof.
  unfold Fs.read_text. destruct (Fs.lookup p fs0) as [[|d]|]; try done.
  by intros [= _ <-] q.
Qed.

(** The parents are made, then the file is written: [__setitem__] of a
    cache that keeps text. *)
Lemma store_trace (p : path) (data : string) w w1 :
  (let* _ := on_fs (Fs.mkdir (parent p)) in
   on_fs (Fs.write_text p data)) w = Ok (tt, w1) ->
  fs_extends (fs w) (fs w1) /\
  Fs.exists_ p (fs w1) = true /\
  Fs.written (fs w1) = Fs.written (fs w) ++ [(p, data)] /\
  calls w1 = calls w.
Proof.
  intros (u & w0 & [Hmk Hc0]%on_fs_Ok & [Hw Hc1]%on_fs_Ok)%bind_Ok.
  destruct (write_text_extends _ _ _ _ Hw) as [Hext Hex].
  split_and!.
  - eapply fs_extends_trans; [by eapply mkdir_extends|done].
  - done.
  - by rewrite (write_text_written _ _ _ _ Hw), (mkdir_written _ _ _ Hmk).
  - congruence.
Qed.

Section BuildTrace.
Context `{Pdoc}.
Implicit Types (g : globals) (modules : dict doc_Module) (w : world).

(** The loop of [render_modules]: the modules it renders are rendered
    once each, for a page that was missing, and afterwards every module
    it went over has its page. *)
Lemma render_loop_trace modules (root : path) (items : dict doc_Module) w w' :
  items ⊆ modules ->
  for_each items (fun item =>
    let module := snd item in
    let* present := Cache.contains (CacheHTML root modules) module in
    if negb present then
      let* value := Cache.call_compute (CacheHTML root modules) module in
      Cache.setitem (CacheHTML root modules) module value
    else ret tt) w = Ok (tt, w') ->
  fs_extends (fs w) (fs w') /\
  (forall item, item ∈ items ->
                Fs.exists_ (root </> CacheHTML_key (snd item)) (fs w') = true) /\
  exists rendered,
    calls w'
    = calls w ++ map (fun item => CallCompute root (CacheHTML_key (snd item)))
                     rendered /\
    Fs.written (fs w')
    = Fs.written (fs w)
      ++ map (fun item => (root </> CacheHTML_key (snd item),
                           html_module (snd item) modules)) rendered /\
    Forall (missing_at root (fun item => CacheHTML_key (snd item)) (fs w)
              modules) rendered.
Proof.
  revert w. induction items as [|item items IH]; intros w Hsub; simpl.
  - intros [= <-]. split_and!; [apply fs_extends_refl| |].
    + intros item Hitem. by apply elem_of_nil in Hitem.
    + exists []. simpl. by rewrite !app_nil_r.
  - intros ([] & w1 & Hbody & Hrest)%bind_Ok.
    assert (item ∈ modules) as Hitem by (apply Hsub; left).
    assert (items ⊆ modules) as Hsub'.
    { intros x Hx. apply Hsub. by right. }
    destruct (IH w1 Hsub' Hrest) as (Hext & Hpages & rendered & Hc & Hw & Hm).
    apply bind_Ok in Hbody as (present & w0 & Hcont & Hbody).
    unfold Cache.contains in Hcont. injection Hcont as <- <-.
    cbn [cache_path key CacheHTML] in Hbody.
    destruct (Fs.exists_ (root </> CacheHTML_key (snd item)) (fs w)) eqn:Hex;
      cbn [negb] in Hbody.
    + injection Hbody as <-. split_and!; [done| |].
      * intros x [->|Hx]%elem_of_cons; [by apply Hext|by apply Hpages].
      * by exists rendered.
    + apply bind_Ok in Hbody as (value & w2 & Hcall & Hset).
      unfold Cache.call_compute, bind, record_call, ret in Hcall.
      injection Hcall as <- <-.
      apply store_trace in Hset as (Hext1 & Hex1 & Hw1 & Hc1).
      cbn [fs calls] in *.
      split_and!.
      * by eapply fs_extends_trans.
      * intros x [->|Hx]%elem_of_cons; [by apply Hext|by apply Hpages].
      * exists (item :: rendered). cbn [map]. split_and!.
        -- rewrite Hc, Hc1. cbn [cache_path key CacheHTML compute].
           by rewrite <- app_assoc.
        -- rewrite Hw, Hw1. cbn [cache_path key CacheHTML compute].
           by rewrite <- app_assoc.
        -- constructor; [by split|].
           eapply Forall_impl; [exact Hm|]. intros x [Hx Hmiss].
           split; [done|]. by eapply fs_extends_missing.
Qed.

(** [get] of the cache of fragments. *)
Lemma index_get_trace modules (root : path) (k : string * doc_Module)
    value w w1 :
  Cache.get (CacheIndex root modules) k w = Ok (value, w1) ->
  fs_extends (fs w) (fs w1) /\
  Fs.exists_ (root </> CacheIndex_key k) (fs w1) = true /\
  ((calls w1 = calls w /\ Fs.written (fs w1) = Fs.written (fs w)) \/
   (calls w1 = calls w ++ [CallCompute root (CacheIndex_key k)] /\
    Fs.written (fs w1)
    = Fs.written (fs w) ++ [(root </> CacheIndex_key k,
                             json_dump (make_index [k]))] /\
    Fs.exists_ (root </> CacheIndex_key k) (fs w) = false)).
Proof.
  unfold Cache.get, Cache.getitem. cbn [cache_path key CacheIndex load].
  destruct (Fs.exists_ (root </> CacheIndex_key k) (fs w)) eqn:Hex;
    cbn [negb].
  - unfold from_fs, result_bind.
    destruct (Fs.read_text _ (fs w)) as [[text fs1]|e] eqn:Hread.
    + destruct (json_load (fst (text, fs1))); [|done].
      intros [= <- <-]. cbn [fs calls snd].
      pose proof (read_text_extends _ _ _ _ Hread) as Hext.
      split_and!; [done|by apply Hext|left].
      split; [done|]. by eapply read_text_written.
    + unfold Fs.read_text in Hread.
      destruct (Fs.lookup _ (fs w)) as [[|d]|]; by simplify_eq.
  - intros (v & w2 & Hcall & Hrest)%bind_Ok.
    apply bind_Ok in Hrest as ([] & w3 & Hset & Hret).
    injection Hret as <- <-.
    unfold Cache.call_compute, bind, record_call, ret in Hcall.
    injection Hcall as <- <-.
    apply store_trace in Hset as (Hext1 & Hex1 & Hw1 & Hc1).
    cbn [fs calls] in *. split_and!; [done..|right]. by rewrite Hc1, Hw1.
Qed.

(** The comprehension of [search_index]. *)
Lemma gather_trace modules (root : path) (items : dict doc_Module)
    (index : list entry) w w' :
  items ⊆ modules ->
  gather items (fun k => Cache.get (CacheIndex root modules) k) w
  = Ok (index, w') ->
  fs_extends (fs w) (fs w') /\
  (forall item, item ∈ items ->
                Fs.exists_ (root </> CacheIndex_key item) (fs w') = true) /\
  exists computed,
    calls w'
    = calls w ++ map (fun item => CallCompute root (CacheIndex_key item))
                     computed /\
    Fs.written (fs w')
    = Fs.written (fs w)
      ++ map (fun item => (root </> CacheIndex_key item,
                           json_dump (make_index [item]))) computed /\
    Forall (missing_at root CacheIndex_key (fs w) modules) computed.
Proof.
  revert w index. induction items as [|item items IH]; intros w index Hsub;
    simpl.
  - intros [= <- <-]. split_and!; [apply fs_extends_refl| |].
    + intros item Hitem. by apply elem_of_nil in Hitem.
    + exists []. simpl. by rewrite !app_nil_r.
  - intros (ys & w1 & Hget & Hrest)%bind_Ok.
    apply bind_Ok in Hrest as (rest & w2 & Hrest & Hret).
    injection Hret as <- <-.
    assert (item ∈ modules) as Hitem by (apply Hsub; left).
    assert (items ⊆ modules) as Hsub'.
    { intros x Hx. apply Hsub. by right. }
    destruct (IH w1 rest Hsub' Hrest)
      as (Hext & Hfrags & computed & Hc & Hw & Hm).
    apply index_get_trace in Hget as (Hext1 & Hex1 & Hcase).
    assert (Forall (missing_at root CacheIndex_key (fs w) modules) computed)
      as Hm'.
    { eapply Forall_impl; [exact Hm|]. intros x [Hx Hmiss].
      split; [done|]. by eapply fs_extends_missing. }
    split_and!.
    + by eapply fs_extends_trans.
    + intros x [->|Hx]%elem_of_cons; [by apply Hext|by apply Hfrags].
    + destruct Hcase as [[Hc1 Hw1]|(Hc1 & Hw1 & Hmiss)].
      * exists computed. by rewrite Hc, Hw, Hc1, Hw1.
      * exists (item :: computed). cbn [map]. split_and!.
        -- by rewrite Hc, Hc1, <- app_assoc.
        -- by rewrite Hw, Hw1, <- app_assoc.
        -- constructor; [by split|done].
Qed.

End BuildTrace.

Section BuildRuns.
Context `{Pdoc}.
Implicit Types (g : globals) (modules : dict doc_Module) (w : world).

Lemma optional_write_extends (p : path) (data : string) w w' :
  (if truthy data then on_fs (Fs.write_text p data) else ret tt) w
  = Ok (tt, w') ->
  fs_extends (fs w) (fs w') /\ calls w' = calls w.
Proof.
  destruct (truthy data).
  - intros [Hw Hc]%on_fs_Ok. split; [|done].
    by apply write_text_extends in Hw as [Hext _].
  - intros [= <-]. split; [apply fs_extends_refl|done].
Qed.

Lemma search_index_trace g modules (cache_path : path) w w' payload :
  search_index g modules cache_path w = Ok (payload, w') ->
  fs_extends (fs w) (fs w') /\
  (search g = true ->
   forall item, item ∈ modules ->
     Fs.exists_ (cache_path </> CacheIndex_key item) (fs w') = true) /\
  exists computed,
    calls w'
    = calls w ++ [CallRootRender]
      ++ map (fun item => CallCompute cache_path (CacheIndex_key item))
             computed
      ++ (if search g then [CallPrecompileIndex] else []) /\
    Fs.written (fs w')
    = Fs.written (fs w)
      ++ map (fun item => (cache_path </> CacheIndex_key item,
                           json_dump (make_index [item]))) computed /\
    Forall (missing_at cache_path CacheIndex_key (fs w) modules) computed /\
    (search g = false -> computed = []).
Proof.
  destruct (search g) eqn:Hs.
  - unfold search_index. rewrite Hs. cbn [negb].
    intros (cache & w1 & Hinit & Hrest)%bind_Ok.
    unfold CacheIndex_init in Hinit.
    apply bind_Ok in Hinit as ([] & w0 & [Hmk Hc0]%on_fs_Ok & Hinit).
    unfold bind, record_call, ret in Hinit. injection Hinit as <- <-.
    apply bind_Ok in Hrest as (index & w2 & Hgather & Hrest).
    unfold bind, record_call, ret in Hrest. injection Hrest as <- <-.
    apply gather_trace in Hgather
      as (Hext & Hfrags & computed & Hc & Hw & Hm); [|done].
    cbn [fs calls] in *.
    pose proof (mkdir_extends _ _ _ Hmk) as Hext0.
    split_and!.
    + by eapply fs_extends_trans.
    + intros _. exact Hfrags.
    + exists computed. split_and!.
      * rewrite Hc, Hc0. by rewrite <- !app_assoc.
      * by rewrite Hw, (mkdir_written _ _ _ Hmk).
      * eapply Forall_impl; [exact Hm|]. intros x [Hx Hmiss].
        split; [done|]. by eapply fs_extends_missing.
      * done.
  - rewrite search_index_disabled by done.
    destruct (Fs.mkdir cache_path (fs w)) as [fs1|] eqn:Hmk; [|done].
    intros [= <- <-]. cbn [fs calls]. split_and!.
    + by eapply mkdir_extends.
    + done.
    + exists []. cbn [map]. rewrite !app_nil_r.
      by rewrite (mkdir_written _ _ _ Hmk).
Qed.

(** A whole run of [render_modules]: what it computes and writes, in
    order, and what is on the disk afterwards. *)
Lemma render_modules_trace g modules (output : path) w w' :
  render_modules g modules output w = Ok (tt, w') ->
  let cache_path := output </> Path ".cache" </> Path "search" in
  fs_extends (fs w) (fs w') /\
  (forall item, item ∈ modules ->
     Fs.exists_ (output </> CacheHTML_key (snd item)) (fs w') = true) /\
  (search g = true ->
   forall item, item ∈ modules ->
     Fs.exists_ (cache_path </> CacheIndex_key item) (fs w') = true) /\
  exists rendered computed payload,
    calls w'
    = calls w
      ++ map (fun item => CallCompute output (CacheHTML_key (snd item)))
             rendered
      ++ [CallHtmlIndex; CallRootRender]
      ++ map (fun item => CallCompute cache_path (CacheIndex_key item))
             computed
      ++ (if search g then [CallPrecompileIndex] else []) /\
    Fs.written (fs w')
    = Fs.written (fs w)
      ++ map (fun item => (output </> CacheHTML_key (snd item),
                           html_module (snd item) modules)) rendered
      ++ optional_write (output </> Path "index.html") (html_index modules)
      ++ map (fun item => (cache_path </> CacheIndex_key item,
                           json_dump (make_index [item]))) computed
      ++ optional_write (output </> Path "search.js") payload /\
    Forall (missing_at output (fun item => CacheHTML_key (snd item)) (fs w)
              modules) rendered /\
    Forall (missing_at cache_path CacheIndex_key (fs w) modules) computed /\
    (search g = false -> computed = [] /\ payload = "").
Proof.
  intros Hrun cache_path. unfold render_modules in Hrun. fold cache_path in Hrun.
  apply bind_Ok in Hrun as (cache & w1 & Hinit & Hrest).
  unfold CacheHTML_init in Hinit.
  apply bind_Ok in Hinit as ([] & w0 & [Hmk Hc0]%on_fs_Ok & Hinit).
  injection Hinit as <- <-.
  apply bind_Ok in Hrest as ([] & w2 & Hloop & Hrest).
  apply render_loop_trace in Hloop
    as (Hext2 & Hpages & rendered & Hc2 & Hw2 & Hm2); [|done].
  apply bind_Ok in Hrest as ([] & w3 & Hcall & Hrest).
  unfold record_call in Hcall. injection Hcall as <-.
  apply bind_Ok in Hrest as ([] & w4 & Hindex & Hrest).
  pose proof (optional_write_written _ _ _ _ Hindex) as Hw4.
  apply optional_write_extends in Hindex as [Hext4 Hc4].
  apply bind_Ok in Hrest as (payload & w5 & Hsearch & Hjs).
  pose proof (search_index_writes _ _ _ _ _ _ Hsearch)
    as (frags & _ & _ & Hoff).
  apply search_index_trace in Hsearch
    as (Hext5 & Hfrags & computed & Hc5 & Hw5 & Hm5 & Hnone).
  pose proof (optional_write_written _ _ _ _ Hjs) as Hw6.
  apply optional_write_extends in Hjs as [Hext6 Hc6].
  cbn [fs calls] in *.
  pose proof (mkdir_extends _ _ _ Hmk) as Hext0.
  assert (fs_extends (fs w) (fs w2)) as Hw_w2
    by (by eapply fs_extends_trans).
  assert (fs_extends (fs w2) (fs w')) as Hw2_w'.
  { eapply fs_extends_trans; [exact Hext4|].
    by eapply fs_extends_trans. }
  split_and!.
  - by eapply fs_extends_trans.
  - intros item Hitem. by apply Hw2_w', Hpages.
  - intros Hon item Hitem. apply Hext6. by apply Hfrags.
  - exists rendered, computed, payload. split_and!.
    + rewrite Hc6, Hc5, Hc4, Hc2, Hc0. by rewrite <- !app_assoc.
    + rewrite Hw6, Hw5, Hw4, Hw2, (mkdir_written _ _ _ Hmk).
      by rewrite <- !app_assoc.
    + eapply Forall_impl; [exact Hm2|]. intros x [Hx Hmiss].
      split; [done|]. eapply fs_extends_missing; [exact Hext0|exact Hmiss].
    + eapply Forall_impl; [exact Hm5|]. intros x [Hx Hmiss].
      split; [done|]. eapply fs_extends_missing; [|exact Hmiss].
      eapply fs_extends_trans; [exact Hw_w2|exact Hext4].
    + intros Hs. split; [by apply Hnone|]. by apply Hoff.
Qed.

End BuildRuns.

Lemma nothing_missing {K} (root : path) (key_path : K -> path)
    (fs0 : filesystem) (keys l : list K) :
  (forall k, k ∈ keys -> Fs.exists_ (root </> key_path k) fs0 = true) ->
  Forall (missing_at root key_path fs0 keys) l -> l = [].
Proof.
  intros Hall Hl. destruct l as [|k l]; [done|].
  apply Forall_cons in Hl as [[Hk Hmiss] _].
  rewrite (Hall k Hk) in Hmiss. done.
Qed.

Section BuildClaims.
Context `{Pdoc}.
Implicit Types (g : globals) (modules : dict doc_Module) (w : world).



(** X14. A second run over the same output computes nothing: it calls
    [compute] of neither cache, renders the landing page and the template
    context again, and writes nothing but [index.html] and [search.js]. *)
Theorem second_run_computes_nothing g modules (output : path) w w1 w2 :
  render_modules g modules output w = Ok (tt, w1) ->
  render_modules g modules output w1 = Ok (tt, w2) ->
  calls w2
  = calls w1 ++ [CallHtmlIndex; CallRootRender]
    ++ (if search g then [CallPrecompileIndex] else []) /\
  exists payload,
    Fs.written (fs w2)
    = Fs.written (fs w1)
      ++ optional_write (output </> Path "index.html") (html_index modules)
      ++ optional_write (output </> Path "search.js") payload.
Proof.
  intros Hfirst Hsecond.
  destruct (render_modules_trace _ _ _ _ _ Hfirst)
    as (_ & Hpages & Hfrags & _).
  destruct (render_modules_trace _ _ _ _ _ Hsecond)
    as (_ & _ & _ & rendered & computed & payload
        & Hc & Hw & Hm1 & Hm2 & Hoff).
  assert (rendered = []) as ->.
  { eapply nothing_missing; [|exact Hm1]. exact Hpages. }
  assert (computed = []) as ->.
  { destruct (search g) eqn:Hs.
    - eapply nothing_missing; [|exact Hm2]. by apply Hfrags.
    - by destruct Hoff. }
  cbn [map app] in Hc, Hw. split; [exact Hc|]. by exists payload.
Qed.


(** X16. The cache of fragments loads what it saved: a list of entries
    saved at a path is there afterwards and loads back as the same list,
    when [json.load] gives back that list from what [json.dump] wrote. *)
Theorem CacheIndex_loads_what_it_saved (root : path) modules (q : path)
    (value : list entry) fs0 fs1 :
  json_load (json_dump value) = Some value ->
  save (CacheIndex root modules) q value fs0 = Ok fs1 ->
  Fs.exists_ q fs1 = true /\
  load (CacheIndex root modules) q fs1
  = Ok (value, {| nodes := nodes fs1; journal := journal fs1 ++ [OpRead q] |}).
Proof.
  intros Hjson Hsave. cbn [save load CacheIndex] in *.
  pose proof (write_text_lookup _ _ _ _ Hsave) as Hlook.
  unfold Fs.exists_, result_bind, Fs.read_text. rewrite Hlook.
  split; [done|]. cbn [fst snd]. by rewrite Hjson.
Qed.

End BuildClaims.


Lemma second_run_computes_nothing_witness :
  exists w1 w2,
    render_modules (H := toy_pdoc all_importable) configured
      [("pkg.sub", "pkg.sub")] (Path "out") toy_world = Ok (tt, w1) /\
    render_modules (H := toy_pdoc all_importable) configured
      [("pkg.sub", "pkg.sub")] (Path "out") w1 = Ok (tt, w2) /\
    calls w2
    = calls w1 ++ [CallHtmlIndex; CallRootRender; CallPrecompileIndex].
Proof.
  assert (exists w1 w2,
             render_modules (H := toy_pdoc all_importable) configured
               [("pkg.sub", "pkg.sub")] (Path "out") toy_world
             = Ok (tt, w1) /\
             render_modules (H := toy_pdoc all_importable) configured
               [("pkg.sub", "pkg.sub")] (Path "out") w1 = Ok (tt, w2))
    as (w1 & w2 & Hfirst & Hsecond).
  { exists (match render_modules (H := toy_pdoc all_importable) configured
                    [("pkg.sub", "pkg.sub")] (Path "out") toy_world with
            | Ok (_, w0) => w0
            | Err _ => toy_world
            end).
    exists (match (let* _ := render_modules (H := toy_pdoc all_importable)
                               configured [("pkg.sub", "pkg.sub")]
                               (Path "out") in
                   render_modules (H := toy_pdoc all_importable) configured
                     [("pkg.sub", "pkg.sub")] (Path "out")) toy_world with
            | Ok (_, w0) => w0
            | Err _ => toy_world
            end).
    split; by_vm. }
  destruct (second_run_computes_nothing (H := toy_pdoc all_importable)
              configured [("pkg.sub", "pkg.sub")] (Path "out")
              toy_world w1 w2 Hfirst Hsecond) as [Hcalls _].
  exists w1, w2. split; [exact Hfirst|]. split; [exact Hsecond|exact Hcalls].
Defined.


Lemma CacheIndex_loads_what_it_saved_witness :
  exists fs1 fs2,
    Fs.mkdir (Path "out/pkg") (fs toy_world) = Ok fs1 /\
    save (CacheIndex (H := toy_pdoc all_importable) (Path "out") [])
      (Path "out/pkg/sub.json") ["pkg.sub"; "pkg.sub.f"] fs1 = Ok fs2 /\
    Fs.exists_ (Path "out/pkg/sub.json") fs2 = true.
Proof.
  assert (exists fs1 fs2,
             Fs.mkdir (Path "out/pkg") (fs toy_world) = Ok fs1 /\
             save (CacheIndex (H := toy_pdoc all_importable) (Path "out") [])
               (Path "out/pkg/sub.json") ["pkg.sub"; "pkg.sub.f"] fs1
             = Ok fs2) as (fs1 & fs2 & Hmk & Hsave).
  { exists (match Fs.mkdir (Path "out/pkg") (fs toy_world) with
            | Ok f => f
            | Err _ => fs toy_world
            end).
    exists (match result_bind (Fs.mkdir (Path "out/pkg") (fs toy_world))
                    (Fs.write_text (Path "out/pkg/sub.json")
                                   "pkg.sub,pkg.sub.f") with
            | Ok f => f
            | Err _ => fs toy_world
            end).
    split; by_vm. }
  destruct (CacheIndex_loads_what_it_saved (H := toy_pdoc all_importable)
              (Path "out") [] (Path "out/pkg/sub.json")
              ["pkg.sub"; "pkg.sub.f"] fs1 fs2) as [Hex _].
  - reflexivity.
  - exact Hsave.
  - exists fs1, fs2. split; [exact Hmk|]. split; [exact Hsave|exact Hex].
Defined.
